(** * Multi-object tracker and pipeline orchestrator: a shallow embedding

    This development embeds the tracking core of the GPU service
    ([gpu_service/src/tracking/bytetrack.py]) and the job-level parts of the
    video pipeline ([gpu_service/src/video_processing/pipeline.py]) and proves
    properties of them.

    Conventions.
    - Python [float] and numpy [float32] values are embedded as exact
      rationals ([Q]); rounding is not modelled.  Equality of numeric results
      is therefore [Qeq] ([==]).
    - Python [int] values are embedded as [Z].
    - Mutable objects held in Python lists are embedded by value; in-place
      mutation of [self.tracked_stracks[i]] is a list update at index [i].
    - A Python exception is embedded as [None] in an [option] result. *)

From Stdlib Require Import QArith Qround Lqa ZArith Lia List Bool Sorted.
From stdpp Require Import base option list strings gmap.

#[local] Open Scope Z_scope.

(** ** Numeric helpers mirroring Python built-ins *)

Module Py.

(** [a < b] on floats. *)
Definition ltb (a b : Q) : bool := negb (Qle_bool b a).

(** [max(a, b)]: keeps the first argument unless the second is larger. *)
Definition max (a b : Q) : Q := if ltb a b then b else a.

(** [min(a, b)]: keeps the first argument unless the second is smaller. *)
Definition min (a b : Q) : Q := if ltb b a then b else a.

(** [np.clip(v, lo, hi)], i.e. [minimum(maximum(v, lo), hi)]. *)
Definition clip (v lo hi : Q) : Q :=
  if ltb v lo then lo else if ltb hi v then hi else v.

End Py.

(** ** Schemas ([models/schemas.py]) *)

Module BoundingBox.

Record t : Type := mk {
  x : Q;
  y : Q;
  width : Q;
  height : Q;
  confidence : Q
}.


End BoundingBox.

Module TrackingData.

Record t : Type := mk {
  track_id : Z;
  bounding_box : BoundingBox.t;
  timestamp : Q
}.

End TrackingData.

(** ** Intersection over union ([ByteTracker._compute_iou]) *)

Module IoU.
Import BoundingBox.
#[local] Open Scope Q_scope.

Definition _compute_iou (box1 box2 : BoundingBox.t) : Q :=
  let x1_min := x box1 - width box1 / 2 in
  let y1_min := y box1 - height box1 / 2 in
  let x1_max := x box1 + width box1 / 2 in
  let y1_max := y box1 + height box1 / 2 in
  let x2_min := x box2 - width box2 / 2 in
  let y2_min := y box2 - height box2 / 2 in
  let x2_max := x box2 + width box2 / 2 in
  let y2_max := y box2 + height box2 / 2 in
  let inter_x_min := Py.max x1_min x2_min in
  let inter_y_min := Py.max y1_min y2_min in
  let inter_x_max := Py.min x1_max x2_max in
  let inter_y_max := Py.min y1_max y2_max in
  if Qle_bool inter_x_max inter_x_min || Qle_bool inter_y_max inter_y_min
  then 0
  else
    let inter_area :=
      (inter_x_max - inter_x_min) * (inter_y_max - inter_y_min) in
    let area1 := width box1 * height box1 in
    let area2 := width box2 * height box2 in
    let union_area := area1 + area2 - inter_area in
    if Qle_bool union_area 0 then 0 else inter_area / union_area.




End IoU.

(** ** Dense linear algebra over [Q] (the numpy operations used by the filter)

    [@] is [mat_vec] / [mat_mul], [.T] is [transpose], [np.eye] is [eye] and
    [np.linalg.inv] is [inv], which is [None] on a singular matrix (numpy
    raises [LinAlgError]).  Entries are kept in lowest terms. *)

Module LinAlg.
#[local] Open Scope Q_scope.

Definition vec : Type := list Q.
Definition mat : Type := list (list Q).

Definition dot (u v : vec) : Q := Qred (foldr Qplus 0 (zip_with Qmult u v)).

Definition vec_add (u v : vec) : vec := zip_with (fun a b => Qred (a + b)) u v.
Definition vec_sub (u v : vec) : vec := zip_with (fun a b => Qred (a - b)) u v.

Definition mat_vec (m : mat) (v : vec) : vec := map (fun row => dot row v) m.

Fixpoint transpose (m : mat) : mat :=
  match m with
  | [] => []
  | [r] => map (fun a => [a]) r
  | r :: rest => zip_with cons r (transpose rest)
  end.

Definition mat_mul (a b : mat) : mat :=
  let bt := transpose b in
  map (fun row => map (fun col => dot row col) bt) a.

Definition mat_add (a b : mat) : mat := zip_with vec_add a b.
Definition mat_sub (a b : mat) : mat := zip_with vec_sub a b.

Definition mat_scale (c : Q) (a : mat) : mat :=
  map (map (fun e => Qred (e * c))) a.

Definition eye (n : nat) : mat :=
  map (fun i => map (fun j => if Nat.eqb i j then 1 else 0) (seq 0 n))
      (seq 0 n).

(** [m[rows, cols] = f(m[rows, cols])] for a block selected by index tests. *)
Definition map_block (rows cols : nat -> bool) (f : nat -> nat -> Q -> Q)
    (m : mat) : mat :=
  imap (fun i row =>
          imap (fun j e => if rows i && cols j then f i j e else e) row) m.

Definition entry (r : vec) (k : nat) : Q := nth k r 0.

(** First row with a non-zero entry in column [k], and the other rows. *)
Fixpoint split_pivot (k : nat) (rows : mat) : option (vec * mat) :=
  match rows with
  | [] => None
  | r :: rs =>
      if Qeq_bool (entry r k) 0
      then match split_pivot k rs with
           | Some (p, rest) => Some (p, r :: rest)
           | None => None
           end
      else Some (r, rs)
  end.

(** Gauss-Jordan elimination on an augmented matrix, one column at a time. *)
Fixpoint gauss_jordan (cols : list nat) (done todo : mat) : option mat :=
  match cols with
  | [] => Some done
  | k :: ks =>
      match split_pivot k todo with
      | None => None
      | Some (p, rest) =>
          let p' := map (fun e => Qred (e / entry p k)) p in
          let elim := fun r : vec =>
            zip_with (fun a b => Qred (a - entry r k * b)) r p' in
          gauss_jordan ks (map elim done ++ [p']) (map elim rest)
      end
  end.

Definition inv (m : mat) : option mat :=
  let n := length m in
  match gauss_jordan (seq 0 n) [] (zip_with app m (eye n)) with
  | Some res => Some (map (drop n) res)
  | None => None
  end.

End LinAlg.

(** ** Motion state ([KalmanBoxTracker]) *)

Module KalmanBoxTracker.
Import LinAlg.
#[local] Open Scope Q_scope.

(** Instance attributes.  The class attribute [KalmanBoxTracker.count] is
    global state and is threaded explicitly through the constructor. *)
Record t : Type := mk {
  id : Z;
  state : vec;
  covariance : mat;
  time_since_update : Z;
  hit_streak : Z;
  hits : Z;
  age : Z;
  last_timestamp : Q;
  confidence : Q
}.

Definition ge4 (i : nat) : bool := Nat.leb 4 i.
Definition lt4 (i : nat) : bool := Nat.ltb i 4.

(** [self.process_noise], [self.measurement_noise], [self.transition] and
    [self.measurement] are set once in [__init__] and never written again. *)
Definition process_noise : mat :=
  map_block ge4 ge4 (fun _ _ e => Qred (e * (1 # 100)))
    (map_block lt4 lt4 (fun _ _ e => Qred (e * (1 # 100))) (eye 8)).

Definition measurement_noise : mat := mat_scale (1 # 10) (eye 4).

Definition transition : mat :=
  map_block lt4 ge4 (fun i j _ => if Nat.eqb (i + 4) j then 1 else 0) (eye 8).

Definition measurement : mat :=
  map_block lt4 lt4 (fun i j _ => if Nat.eqb i j then 1 else 0)
    (repeat (repeat 0 8%nat) 4%nat).

(** [transition = self.transition.copy(); transition[:4, 4:] *= dt]. *)
Definition transition_dt (dt : Q) : mat :=
  map_block lt4 ge4 (fun _ _ e => Qred (e * dt)) transition.

(** [__init__(bbox, timestamp)]: the new tracker and the new class counter. *)
Definition init (count : Z) (bbox : BoundingBox.t) (timestamp : Q) : t * Z :=
  ({| id := count;
      state := [BoundingBox.x bbox; BoundingBox.y bbox;
                BoundingBox.width bbox; BoundingBox.height bbox; 0; 0; 0; 0];
      covariance :=
        map_block ge4 ge4 (fun _ _ e => Qred (e * 1000)) (eye 8);
      time_since_update := 0;
      hit_streak := 0;
      hits := 1;
      age := 1;
      last_timestamp := timestamp;
      confidence := BoundingBox.confidence bbox |},
   (count + 1)%Z).

(** [update(bbox, timestamp)]; [None] when [np.linalg.inv] raises. *)
Definition update (self : t) (bbox : BoundingBox.t) (timestamp : Q)
    : option t :=
  let dt := Qred (timestamp - last_timestamp self) in
  let transition := transition_dt dt in
  let state1 := mat_vec transition (state self) in
  let covariance1 :=
    mat_add (mat_mul (mat_mul transition (covariance self))
                     (transpose transition))
            (mat_scale dt process_noise) in
  let z := [BoundingBox.x bbox; BoundingBox.y bbox;
            BoundingBox.width bbox; BoundingBox.height bbox] in
  let innovation := vec_sub z (mat_vec measurement state1) in
  let innovation_cov :=
    mat_add (mat_mul (mat_mul measurement covariance1)
                     (transpose measurement))
            measurement_noise in
  match inv innovation_cov with
  | None => None
  | Some innovation_cov_inv =>
      let kalman_gain :=
        mat_mul (mat_mul covariance1 (transpose measurement))
                innovation_cov_inv in
      Some {| id := id self;
              state := vec_add state1 (mat_vec kalman_gain innovation);
              covariance :=
                mat_mul (mat_sub (eye 8) (mat_mul kalman_gain measurement))
                        covariance1;
              time_since_update := 0;
              hit_streak := (hit_streak self + 1)%Z;
              hits := (hits self + 1)%Z;
              age := age self;
              last_timestamp := timestamp;
              confidence :=
                Py.max (confidence self * (9 # 10))
                       (BoundingBox.confidence bbox) |}
  end.

(** [predict(timestamp)]: the returned box and the tracker after the call. *)
Definition predict (self : t) (timestamp : Q) : BoundingBox.t * t :=
  let dt := Qred (timestamp - last_timestamp self) in
  let transition := transition_dt dt in
  let predicted_state := mat_vec transition (state self) in
  let x := Py.clip (entry predicted_state 0) 0 1 in
  let y := Py.clip (entry predicted_state 1) 0 1 in
  let w := Py.clip (entry predicted_state 2) (1 # 100) 1 in
  let h := Py.clip (entry predicted_state 3) (1 # 100) 1 in
  (BoundingBox.mk x y w h (confidence self * (95 # 100)),
   {| id := id self;
      state := state self;
      covariance := covariance self;
      time_since_update := (time_since_update self + 1)%Z;
      hit_streak := hit_streak self;
      hits := hits self;
      age := (age self + 1)%Z;
      last_timestamp := last_timestamp self;
      confidence := confidence self |}).

Definition get_state (self : t) : BoundingBox.t :=
  BoundingBox.mk (Py.clip (entry (state self) 0) 0 1)
                 (Py.clip (entry (state self) 1) 0 1)
                 (Py.clip (entry (state self) 2) (1 # 100) 1)
                 (Py.clip (entry (state self) 3) (1 # 100) 1)
                 (confidence self).

End KalmanBoxTracker.

(** ** Track lifecycle manager and associator ([ByteTracker]) *)

Module ByteTracker.
Module KBT := KalmanBoxTracker.
#[local] Open Scope Q_scope.

Record t : Type := mk {
  track_thresh : Q;
  track_buffer : Z;
  match_thresh : Q;
  frame_rate : Z;
  tracked_stracks : list KBT.t;
  lost_stracks : list KBT.t;
  removed_stracks : list KBT.t;
  frame_id : Z;
  total_tracks : Z;
  active_tracks : Z
}.

(** [__init__]; the defaults are [0.6], [30], [0.8], [30]. *)
Definition init (track_thresh : Q) (track_buffer : Z) (match_thresh : Q)
    (frame_rate : Z) : t :=
  {| track_thresh := track_thresh;
     track_buffer := track_buffer;
     match_thresh := match_thresh;
     frame_rate := frame_rate;
     tracked_stracks := [];
     lost_stracks := [];
     removed_stracks := [];
     frame_id := 0;
     total_tracks := 0;
     active_tracks := 0 |}.

Definition default : t := init (6 # 10) 30 (8 # 10) 30.

(** *** [_associate] *)

Definition iou_matrix (detections : list BoundingBox.t)
    (trackers : list KBT.t) : list (list Q) :=
  map (fun det =>
         map (fun track => IoU._compute_iou det (KBT.get_state track))
             trackers)
      detections.

(** [coords = np.where(iou_matrix >= iou_threshold)] together with
    [scores = iou_matrix[coords]]: the cells at or above the threshold, in
    row-major order. *)
Definition where_ge (m : list (list Q)) (iou_threshold : Q)
    : list (nat * nat * Q) :=
  concat
    (imap (fun d row =>
             filter (fun c => Is_true (Qle_bool iou_threshold (snd c)))
                    (imap (fun t score => (d, t, score)) row))
          m).

(** [np.argsort(-scores)]: candidates by decreasing score.  Cells of equal
    score keep their row-major order here; numpy does not fix their order,
    and nothing below depends on it. *)
Fixpoint insert_desc (c : nat * nat * Q) (l : list (nat * nat * Q))
    : list (nat * nat * Q) :=
  match l with
  | [] => [c]
  | e :: l' =>
      if Qle_bool (snd e) (snd c) then c :: e :: l'
      else e :: insert_desc c l'
  end.

Definition argsort_desc (l : list (nat * nat * Q)) : list (nat * nat * Q) :=
  foldr insert_desc [] l.

(** The greedy loop over the sorted candidates. *)
Fixpoint greedy (cands : list (nat * nat)) (matched_indices : list (nat * nat))
    (used_det_indices used_trk_indices : gset nat)
    : list (nat * nat) * gset nat * gset nat :=
  match cands with
  | [] => (matched_indices, used_det_indices, used_trk_indices)
  | (d, t) :: rest =>
      if bool_decide (d ∉ used_det_indices) &&
         bool_decide (t ∉ used_trk_indices)
      then greedy rest (matched_indices ++ [(d, t)])
                  ({[d]} ∪ used_det_indices) ({[t]} ∪ used_trk_indices)
      else greedy rest matched_indices used_det_indices used_trk_indices
  end.

Definition _associate (detections : list BoundingBox.t)
    (trackers : list KBT.t) (iou_threshold : Q)
    : list (nat * nat) * list nat * list nat :=
  if Nat.eqb (length trackers) 0
  then ([], seq 0 (length detections), [])
  else
    let candidates :=
      argsort_desc (where_ge (iou_matrix detections trackers) iou_threshold) in
    let '(matched_indices, used_det_indices, used_trk_indices) :=
      greedy (map fst candidates) [] ∅ ∅ in
    (matched_indices,
     filter (fun d => d ∉ used_det_indices) (seq 0 (length detections)),
     filter (fun t => t ∉ used_trk_indices) (seq 0 (length trackers))).

(** *** [update] *)

(** [for m in pairs: tracked[m[1]].update(dets[m[0]], timestamp)]. *)
Fixpoint update_matched (pairs : list (nat * nat)) (dets : list BoundingBox.t)
    (timestamp : Q) (tracked : list KBT.t) : option (list KBT.t) :=
  match pairs with
  | [] => Some tracked
  | (d, i) :: rest =>
      match tracked !! i, dets !! d with
      | Some trk, Some det =>
          match KBT.update trk det timestamp with
          | Some trk' =>
              update_matched rest dets timestamp (<[i := trk']> tracked)
          | None => None
          end
      | _, _ => None
      end
  end.

(** [for det in dets: if det.confidence >= track_thresh: append a new track]. *)
Fixpoint create_tracks (track_thresh : Q) (dets : list BoundingBox.t)
    (timestamp : Q) (count : Z) : list KBT.t * Z :=
  match dets with
  | [] => ([], count)
  | det :: rest =>
      if Qle_bool track_thresh (BoundingBox.confidence det)
      then
        let '(new_track, count1) := KBT.init count det timestamp in
        let '(others, count2) :=
          create_tracks track_thresh rest timestamp count1 in
        (new_track :: others, count2)
      else create_tracks track_thresh rest timestamp count
  end.

(** [for i in reversed(range(len(tracked))): if tracked[i].time_since_update
    > track_buffer: lost.append(tracked.pop(i))]. *)
Fixpoint evict_loop (track_buffer : Z) (indices : list nat)
    (tracked lost : list KBT.t) : option (list KBT.t * list KBT.t) :=
  match indices with
  | [] => Some (tracked, lost)
  | i :: rest =>
      track ← tracked !! i;
      if (track_buffer <? KBT.time_since_update track)%Z
      then evict_loop track_buffer rest (delete i tracked) (lost ++ [track])
      else evict_loop track_buffer rest tracked lost
  end.

Definition report (timestamp : Q) (track : KBT.t) : TrackingData.t :=
  TrackingData.mk (KBT.id track) (KBT.get_state track) timestamp.

(** The values of the locals of [update] when it returns, with the class
    counter and the tracker as they are left. *)
Record frame : Type := mk_frame {
  matches : list (nat * nat);
  unmatched_trks : list nat;
  matches_low : list (nat * nat);
  new_tracks : list KBT.t;
  lost : list KBT.t;
  tracking_data : list TrackingData.t;
  count_after : Z;
  self_after : t
}.

Definition run_update (count : Z) (self : t) (detections : list BoundingBox.t)
    (timestamp : Q) : option frame :=
  let high_conf_dets :=
    filter (fun d => Is_true (Qle_bool (track_thresh self)
                                       (BoundingBox.confidence d)))
           detections in
  let low_conf_dets :=
    filter (fun d => Is_true (Py.ltb (BoundingBox.confidence d)
                                     (track_thresh self)))
           detections in
  let tracked0 :=
    map (fun track => snd (KBT.predict track timestamp))
        (tracked_stracks self) in
  let '(matches, unmatched_dets, unmatched_trks) :=
    _associate high_conf_dets tracked0 (match_thresh self) in
  tracked1 ← update_matched matches high_conf_dets timestamp tracked0;
  '(matches_low, tracked2) ←
    (if Nat.ltb 0 (length low_conf_dets) && Nat.ltb 0 (length unmatched_trks)
     then
       unmatched_low_trks ← mapM (fun i => tracked1 !! i) unmatched_trks;
       let '(matches_low, _, _) :=
         _associate low_conf_dets unmatched_low_trks (1 # 2) in
       pairs ← mapM (fun m : nat * nat =>
                       track_idx ← unmatched_trks !! snd m;
                       Some (fst m, track_idx))
                    matches_low;
       tracked2 ← update_matched pairs low_conf_dets timestamp tracked1;
       Some (matches_low, tracked2)
     else Some ([], tracked1));
  unmatched_boxes ← mapM (fun i => high_conf_dets !! i) unmatched_dets;
  let '(new_tracks, count1) :=
    create_tracks (track_thresh self) unmatched_boxes timestamp count in
  let tracked3 := tracked2 ++ new_tracks in
  '(tracked4, lost) ←
    evict_loop (track_buffer self) (reverse (seq 0 (length tracked3)))
               tracked3 [];
  let lost_stracks1 :=
    filter (fun track =>
              (KBT.time_since_update track <= track_buffer self)%Z)
           (lost_stracks self ++ lost) in
  let tracking_data :=
    map (report timestamp)
        (filter (fun track => (3 <= KBT.hit_streak track)%Z) tracked4) in
  Some {| matches := matches;
          unmatched_trks := unmatched_trks;
          matches_low := matches_low;
          new_tracks := new_tracks;
          lost := lost;
          tracking_data := tracking_data;
          count_after := count1;
          self_after :=
            {| track_thresh := track_thresh self;
               track_buffer := track_buffer self;
               match_thresh := match_thresh self;
               frame_rate := frame_rate self;
               tracked_stracks := tracked4;
               lost_stracks := lost_stracks1;
               removed_stracks := removed_stracks self;
               frame_id := (frame_id self + 1)%Z;
               total_tracks :=
                 (total_tracks self + Z.of_nat (length new_tracks))%Z;
               active_tracks := Z.of_nat (length tracking_data) |} |}.

(** [update(detections, timestamp)]: the class counter and the tracker after
    the call and the returned list; [None] when the call raises. *)
Definition update (count : Z) (self : t) (detections : list BoundingBox.t)
    (timestamp : Q) : option (Z * t * list TrackingData.t) :=
  f ← run_update count self detections timestamp;
  Some (count_after f, self_after f, tracking_data f).

Definition get_track_by_id (self : t) (track_id : Z) : option KBT.t :=
  head (filter (fun track => KBT.id track = track_id) (tracked_stracks self)).

Record stats : Type := mk_stats {
  stats_total_tracks : Z;
  stats_active_tracks : Z;
  stats_lost_tracks : Z;
  stats_frame_id : Z
}.

Definition get_performance_stats (self : t) : stats :=
  {| stats_total_tracks := total_tracks self;
     stats_active_tracks := active_tracks self;
     stats_lost_tracks := Z.of_nat (length (lost_stracks self));
     stats_frame_id := frame_id self |}.

(** [reset()]: clears the three lists and the frame counter and sets the
    class counter to zero. *)
Definition reset (self : t) : Z * t :=
  (0%Z,
   {| track_thresh := track_thresh self;
      track_buffer := track_buffer self;
      match_thresh := match_thresh self;
      frame_rate := frame_rate self;
      tracked_stracks := [];
      lost_stracks := [];
      removed_stracks := [];
      frame_id := 0;
      total_tracks := total_tracks self;
      active_tracks := active_tracks self |}).

(** Track positions (in [tracked_stracks] as it is when the call starts)
    that received a detection in this frame, in either round. *)
Definition matched_tracks (f : frame) : list nat :=
  map snd (matches f) ++
  omap (fun m : nat * nat => unmatched_trks f !! snd m) (matches_low f).

End ByteTracker.

(** ** Sequences of tracker calls *)

Module KBT := KalmanBoxTracker.
Module BT := ByteTracker.

Module Session.

(** The identities in the class counter's past: every active track owns a
    distinct identity below the counter. *)
Definition ids_below (count : Z) (self : BT.t) : Prop :=
  NoDup (KBT.id <$> BT.tracked_stracks self) /\
  Forall (fun trk => KBT.id trk < count) (BT.tracked_stracks self).

Inductive call : Type :=
  | Update (detections : list BoundingBox.t) (timestamp : Q)
  | Reset.

(** Runs the calls in order on the class counter and one tracker; returns the
    final counter and tracker with the frames of the [Update] calls. *)
Fixpoint run_calls (calls : list call) (count : Z) (self : BT.t)
    : option (Z * BT.t * list BT.frame) :=
  match calls with
  | [] => Some (count, self, [])
  | Update detections timestamp :: rest =>
      f ← BT.run_update count self detections timestamp;
      r ← run_calls rest (BT.count_after f) (BT.self_after f);
      Some (r.1.1, r.1.2, f :: r.2)
  | Reset :: rest =>
      run_calls rest (BT.reset self).1 (BT.reset self).2
  end.

(** What a frame may do to one track: its identity stays, its hit streak does
    not go down, and it is either left as it is or has just been corrected. *)
Definition carried (a b : KBT.t) : Prop :=
  KBT.id b = KBT.id a /\
  KBT.hit_streak a <= KBT.hit_streak b /\
  (b = a \/ KBT.time_since_update b = 0).

(** Identities handed out during the frames, in creation order. *)
Definition created_ids (fs : list BT.frame) : list Z :=
  concat (map (fun f => KBT.id <$> BT.new_tracks f) fs).

(** Identities of the tracks that received a detection in a frame. *)
Definition matched_ids (self : BT.t) (f : BT.frame) : list Z :=
  omap (fun i => KBT.id <$> BT.tracked_stracks self !! i) (BT.matched_tracks f).

(** The track [track_id] is active with the given [time_since_update]. *)
Definition active_with (self : BT.t) (track_id k : Z) : Prop :=
  exists trk, trk ∈ BT.tracked_stracks self /\ KBT.id trk = track_id /\
              KBT.time_since_update trk = k.

Definition inactive (self : BT.t) (track_id : Z) : Prop :=
  track_id ∉ KBT.id <$> BT.tracked_stracks self.

(** Runs [update] over the frames as long as the track [track_id] receives
    no detection; [None] if it is matched in some frame (or a call raises). *)
Fixpoint run_missing (track_id : Z) (frames : list (list BoundingBox.t * Q))
    (count : Z) (self : BT.t) : option (Z * BT.t) :=
  match frames with
  | [] => Some (count, self)
  | (detections, timestamp) :: rest =>
      f ← BT.run_update count self detections timestamp;
      if bool_decide (track_id ∈ matched_ids self f) then None
      else run_missing track_id rest (BT.count_after f) (BT.self_after f)
  end.

(** Positions in [l] of the elements that pass [p], counted from [k]. *)
Fixpoint positions_from {A : Type} (p : A -> bool) (k : nat) (l : list A)
    : list nat :=
  match l with
  | [] => []
  | a :: l' =>
      if p a then k :: positions_from p (S k) l'
      else positions_from p (S k) l'
  end.

(** Positions in [detections] of [high_conf_dets] and of [low_conf_dets]. *)
Definition high_positions (self : BT.t) (detections : list BoundingBox.t)
    : list nat :=
  positions_from
    (fun d => Qle_bool (BT.track_thresh self) (BoundingBox.confidence d))
    0 detections.

Definition low_positions (self : BT.t) (detections : list BoundingBox.t)
    : list nat :=
  positions_from
    (fun d => Py.ltb (BoundingBox.confidence d) (BT.track_thresh self))
    0 detections.

(** Positions in [detections] of the detections that were given to a track
    in this frame, in either round. *)
Definition matched_detections (self : BT.t) (detections : list BoundingBox.t)
    (f : BT.frame) : list nat :=
  omap (fun m : nat * nat => high_positions self detections !! m.1)
       (BT.matches f) ++
  omap (fun m : nat * nat => low_positions self detections !! m.1)
       (BT.matches_low f).

(** [tracked_stracks] once every track has been predicted. *)
Definition predicted (self : BT.t) (ts : Q) : list KBT.t :=
  (fun trk => (KBT.predict trk ts).2) <$> BT.tracked_stracks self.

Definition high_conf_dets (self : BT.t) (dets : list BoundingBox.t) :=
  filter (fun d => Is_true (Qle_bool (BT.track_thresh self)
                                     (BoundingBox.confidence d))) dets.

Definition low_conf_dets (self : BT.t) (dets : list BoundingBox.t) :=
  filter (fun d => Is_true (Py.ltb (BoundingBox.confidence d)
                                   (BT.track_thresh self))) dets.

(** The second association round, as [run_update] performs it. *)
Definition second_round (self : BT.t) (dets : list BoundingBox.t) (ts : Q)
    (f : BT.frame) (tracked1 tracked2 : list KBT.t) : Prop :=
  (BT.matches_low f = [] /\ tracked2 = tracked1) \/
  exists ult pairs uds uts,
    mapM (fun i => tracked1 !! i) (BT.unmatched_trks f) = Some ult /\
    BT._associate (low_conf_dets self dets) ult (1 # 2) =
      (BT.matches_low f, uds, uts) /\
    mapM (fun m : nat * nat =>
            track_idx ← BT.unmatched_trks f !! m.2; Some (m.1, track_idx))
         (BT.matches_low f) = Some pairs /\
    BT.update_matched pairs (low_conf_dets self dets) ts tracked1 =
      Some tracked2.

(** [k] consecutive [predict] calls with no [update] in between: the boxes
    returned and the tracker after the last call. *)
Fixpoint predicts (self : KBT.t) (timestamps : list Q)
    : list BoundingBox.t * KBT.t :=
  match timestamps with
  | [] => ([], self)
  | ts :: rest =>
      let '(box, self1) := KBT.predict self ts in
      let '(boxes, self2) := predicts self1 rest in
      (box :: boxes, self2)
  end.

End Session.

(** ** Path handling used by [_load_video] *)

Module PathLib.
#[local] Open Scope string_scope.

(** [s.split("/")]. *)
Fixpoint split_slash (acc : string) (s : string) : list string :=
  match s with
  | EmptyString => [acc]
  | String c s' =>
      if Ascii.eqb c (Ascii.ascii_of_nat 47) then acc :: split_slash "" s'
      else split_slash (acc ++ String c "") s'
  end.

(** Lexical resolution of the segments of an absolute path. *)
Fixpoint normalize (segments : list string) (stack : list string)
    : list string :=
  match segments with
  | [] => stack
  | seg :: rest =>
      if String.eqb seg "" || String.eqb seg "." then normalize rest stack
      else if String.eqb seg ".." then normalize rest (removelast stack)
      else normalize rest (stack ++ [seg])
  end.

Definition join_root (segments : list string) : string :=
  match segments with
  | [] => "/"
  | _ => foldr (fun seg acc => "/" ++ seg ++ acc) "" segments
  end.

(** [str(Path(p).resolve())] on a file system without symbolic links: the
    path is made absolute against the working directory [cwd], then empty
    and [.] segments are dropped and [..] segments remove their parent. *)
Definition resolve (cwd : string) (p : string) : string :=
  let absolute := if String.prefix "/" p then p else cwd ++ "/" ++ p in
  join_root (normalize (split_slash "" absolute) []).

(** [sub in s]. *)
Fixpoint contains (sub s : string) : bool :=
  String.prefix sub s ||
  match s with
  | EmptyString => false
  | String _ s' => contains sub s'
  end.

(** [s.startswith(pre)]. *)
Definition startswith (s pre : string) : bool := String.prefix pre s.

(** The path [p] is the directory [dir] or lies below it. *)
Definition under_dir (dir p : string) : bool :=
  String.eqb p dir || String.prefix (dir ++ "/") p.

End PathLib.

(** ** Pipeline orchestrator ([VideoProcessor]) *)

Module VideoProcessor.
#[local] Open Scope Q_scope.



(** What the capture object reports for an opened file. *)
Record video : Type := mk_video {
  video_fps : Q;
  video_frame_count : Z
}.

(** The file system as [_load_video] sees it. *)
Record file_system : Type := mk_fs {
  cwd : string;
  path_exists : string -> bool;
  open_video : string -> option video
}.

Inductive fs_event : Type :=
  | Exists (path : string)
  | Open (path : string).

Inductive load_error : Type :=
  | InvalidPath
  | PathNotAllowed
  | FileNotFound
  | OpenFailed
  | ZeroDivision
  | TooLong.

Definition default_allowed_video_dirs : list string :=
  ["/app/videos"; "/app/uploads"; "/tmp"]%string.

(** The two path checks at the head of [_load_video]. *)
Definition validate_path (fs : file_system) (allowed_dirs : list string)
    (video_path : string) : option load_error :=
  let resolved_path := PathLib.resolve (cwd fs) video_path in
  if PathLib.contains ".." resolved_path ||
     negb (PathLib.startswith resolved_path "/")
  then Some InvalidPath
  else if existsb (fun allowed_dir =>
                     PathLib.startswith resolved_path allowed_dir)
                  allowed_dirs
  then None
  else Some PathNotAllowed.

(** [_load_video(video_path)]: the file accesses made, in order, and either
    the exception raised or [(fps, total_frames, duration)]. *)
Definition _load_video (fs : file_system) (allowed_dirs : list string)
    (max_video_duration : Z) (video_path : string)
    : list fs_event * (load_error + Q * Z * Q) :=
  match validate_path fs allowed_dirs video_path with
  | Some e => ([], inl e)
  | None =>
      if negb (path_exists fs video_path)
      then ([Exists video_path], inl FileNotFound)
      else
        match open_video fs video_path with
        | None => ([Exists video_path; Open video_path], inl OpenFailed)
        | Some cap =>
            let fps := video_fps cap in
            let total_frames := video_frame_count cap in
            if Qeq_bool fps 0
            then ([Exists video_path; Open video_path], inl ZeroDivision)
            else
              let duration := inject_Z total_frames / fps in
              if Py.ltb (inject_Z max_video_duration) duration
              then ([Exists video_path; Open video_path], inl TooLong)
              else ([Exists video_path; Open video_path],
                    inr (fps, total_frames, duration))
        end
  end.














End VideoProcessor.

(** ** Concrete inputs used below *)

Module Examples.
#[local] Open Scope Q_scope.


Definition left_box : BoundingBox.t :=
  BoundingBox.mk (1 # 4) (1 # 2) (1 # 5) (1 # 5) (9 # 10).

Definition right_box : BoundingBox.t :=
  BoundingBox.mk (3 # 4) (1 # 2) (1 # 5) (1 # 5) (8 # 10).

(** A track created at [left_box] at time 0 and corrected once, at time 1,
    by a detection a little to the right: it has a non-zero velocity. *)
Definition moved_box : BoundingBox.t :=
  BoundingBox.mk (7 # 20) (1 # 2) (1 # 5) (1 # 5) 1.

Definition moving_track : option KBT.t :=
  KBT.update (KBT.init 0 left_box 0).1 moved_box 1.

(** The tracker and class counter after the calls, from a fresh default
    tracker and a zero counter. *)
Definition state_after (calls : list Session.call) : Z * BT.t :=
  match Session.run_calls calls 0 BT.default with
  | Some r => (r.1.1, r.1.2)
  | None => (0%Z, BT.default)
  end.

(** Four frames that each show [left_box]: the track is created in the
    first and corrected in the next three. *)
Definition warmup : list Session.call :=
  [Session.Update [left_box] 0; Session.Update [left_box] (1 # 30);
   Session.Update [left_box] (2 # 30); Session.Update [left_box] (3 # 30)].

(** One frame that shows [left_box] and [right_box]. *)
Definition two_boxes : list Session.call :=
  [Session.Update [left_box; right_box] 0].

(** A weak detection at [right_box], a strong one at [left_box] and a
    strong one elsewhere. *)
Definition weak_right_box : BoundingBox.t :=
  BoundingBox.mk (3 # 4) (1 # 2) (1 # 5) (1 # 5) (4 # 10).

Definition far_box : BoundingBox.t :=
  BoundingBox.mk (1 # 2) (1 # 10) (1 # 10) (1 # 10) (7 # 10).

Definition mixed_frame : list BoundingBox.t :=
  [weak_right_box; left_box; far_box].

(** A tracker with a buffer of one frame, and calls in which a track is
    created, misses two frames and is evicted, and a track is created again
    at the same place. *)
Definition short_buffer : BT.t := BT.init (6 # 10) 1 (8 # 10) 30.

Definition churn : list Session.call :=
  [Session.Update [left_box] 0; Session.Update [] (1 # 30);
   Session.Update [] (2 # 30); Session.Update [left_box] (3 # 30)].

(** The same calls with a reset in the middle. *)
Definition churn_reset : list Session.call :=
  [Session.Update [left_box] 0; Session.Update [] (1 # 30);
   Session.Reset; Session.Update [left_box; right_box] (3 # 30);
   Session.Update [] (4 # 30); Session.Update [] (5 # 30)].

(** A file system in which every path exists and opens as a three-second
    video, with working directory [/app]. *)
Definition permissive_fs : VideoProcessor.file_system :=
  VideoProcessor.mk_fs "/app"%string (fun _ => true)
    (fun _ => Some (VideoProcessor.mk_video 30 90)).



(** The first active track. *)
Definition first_track (self : BT.t) : KBT.t :=
  match BT.tracked_stracks self with
  | trk :: _ => trk
  | [] => (KBT.init 0 left_box 0).1
  end.

(** [n] frames without any detection, one every thirtieth of a second
    after [start]. *)
Fixpoint empty_frames (n : nat) (start : Q)
    : list (list BoundingBox.t * Q) :=
  match n with
  | O => []
  | S n' => ([], start) :: empty_frames n' (Qred (start + (1 # 30)))
  end.

End Examples.

(** ** Further notions about tracks *)

Module Tracks.
#[local] Open Scope Q_scope.


(** The track is as [__init__] leaves it for the detection [det]. *)
Definition fresh_from (timestamp : Q) (det : BoundingBox.t) (trk : KBT.t)
    : Prop :=
  trk = (KBT.init (KBT.id trk) det timestamp).1.

End Tracks.

(** ** Counters of a track *)

Module Counters.

(** Relations between the counters of a track that every frame keeps. *)
Definition consistent (trk : KBT.t) : Prop :=
  KBT.hits trk = KBT.hit_streak trk + 1 /\
  0 <= KBT.time_since_update trk /\
  0 <= KBT.hit_streak trk /\
  KBT.time_since_update trk + KBT.hit_streak trk + 1 <= KBT.age trk.

(** [frame_id] after the calls, from its value before them. *)
Fixpoint frames_since_reset (calls : list Session.call) (frame_id : Z) : Z :=
  match calls with
  | [] => frame_id
  | Session.Update _ _ :: rest => frames_since_reset rest (frame_id + 1)
  | Session.Reset :: rest => frames_since_reset rest 0
  end.

End Counters.

(** ** Order of the candidates of [_associate] *)

Module Candidates.

(** [a] may come before [b] in [np.argsort(-scores)]. *)
Definition desc (a b : nat * nat * Q) : Prop := (b.2 <= a.2)%Q.

End Candidates.

(** * Properties *)

Section IoUFacts.
Import BoundingBox IoU Examples.
#[local] Open Scope Q_scope.

Lemma py_ltb_spec (a b : Q) : reflect (a < b) (Py.ltb a b).
Proof.
  unfold Py.ltb. destruct (Qle_bool b a) eqn:E; constructor.
  - apply Qle_bool_iff in E. lra.
  - assert (Hn : ~ b <= a) by (rewrite <- Qle_bool_iff; congruence).
    lra.
Qed.

Lemma qle_bool_spec (a b : Q) : reflect (a <= b) (Qle_bool a b).
Proof.
  destruct (Qle_bool a b) eqn:E; constructor.
  - by apply Qle_bool_iff.
  - rewrite <- Qle_bool_iff. congruence.
Qed.










Lemma py_max_bounds (a b : Q) : a <= Py.max a b /\ b <= Py.max a b.
Proof. unfold Py.max. destruct (py_ltb_spec a b); lra. Qed.


Lemma py_max_cases (a b : Q) : Py.max a b = a \/ Py.max a b = b.
Proof. unfold Py.max. destruct (Py.ltb a b); auto. Qed.

Lemma py_min_cases (a b : Q) : Py.min a b = a \/ Py.min a b = b.
Proof. unfold Py.min. destruct (Py.ltb b a); auto. Qed.










End IoUFacts.

(** ** The motion state *)

Section KalmanFacts.
Import LinAlg Examples.
#[local] Open Scope Q_scope.

Lemma predict_self (self : KBT.t) (ts : Q) :
  (KBT.predict self ts).2 =
  KBT.mk (KBT.id self) (KBT.state self) (KBT.covariance self)
         (KBT.time_since_update self + 1) (KBT.hit_streak self)
         (KBT.hits self) (KBT.age self + 1) (KBT.last_timestamp self)
         (KBT.confidence self).
Proof. reflexivity. Qed.

Lemma predict_box_confidence (self : KBT.t) (ts : Q) :
  BoundingBox.confidence (KBT.predict self ts).1 =
  KBT.confidence self * (95 # 100).
Proof. reflexivity. Qed.

Lemma kbt_update_fields (self self' : KBT.t) (bbox : BoundingBox.t) (ts : Q) :
  KBT.update self bbox ts = Some self' ->
  KBT.id self' = KBT.id self /\
  KBT.time_since_update self' = 0%Z /\
  KBT.hit_streak self' = (KBT.hit_streak self + 1)%Z /\
  KBT.hits self' = (KBT.hits self + 1)%Z /\
  KBT.age self' = KBT.age self.
Proof.
  unfold KBT.update. destruct (inv _); [|discriminate].
  intros H. apply (inj Some) in H. rewrite <- H. cbn [KBT.id
    KBT.time_since_update KBT.hit_streak KBT.hits KBT.age]. auto.
Qed.



Lemma predicts_cons (self : KBT.t) (ts : Q) (rest : list Q) :
  Session.predicts self (ts :: rest) =
  ((KBT.predict self ts).1 ::
     (Session.predicts (KBT.predict self ts).2 rest).1,
   (Session.predicts (KBT.predict self ts).2 rest).2).
Proof.
  change (Session.predicts self (ts :: rest)) with
    (let '(box, self1) := KBT.predict self ts in
     let '(boxes, self2) := Session.predicts self1 rest in
     (box :: boxes, self2)).
  destruct (KBT.predict self ts) as [box self1]. cbn [fst snd].
  by destruct (Session.predicts self1 rest).
Qed.

Lemma predicts_spec (self : KBT.t) (timestamps : list Q) :
  Forall (fun box => BoundingBox.confidence box =
                     KBT.confidence self * (95 # 100))
         (Session.predicts self timestamps).1 /\
  KBT.confidence (Session.predicts self timestamps).2 = KBT.confidence self.
Proof.
  revert self. induction timestamps as [|ts rest IH]; intros self.
  - split; [constructor|reflexivity].
  - rewrite predicts_cons. cbn [fst snd].
    destruct (IH (KBT.predict self ts).2) as [IH1 IH2].
    split; [constructor; [reflexivity|exact IH1] | exact IH2].
Qed.

(** C4 (as amended): across consecutive [predict] calls with no [update] in
    between, every returned box carries the stored confidence times 0.95
    (the stored confidence is not changed by [predict]), so the reported
    confidence is constant from call to call, hence non-increasing. *)
Theorem predict_confidence_constant (self : KBT.t) (timestamps : list Q) :
  let boxes := (Session.predicts self timestamps).1 in
  (forall k box, boxes !! k = Some box ->
     BoundingBox.confidence box = KBT.confidence self * (95 # 100)) /\
  (forall k box box', boxes !! k = Some box -> boxes !! S k = Some box' ->
     BoundingBox.confidence box' <= BoundingBox.confidence box) /\
  KBT.confidence (Session.predicts self timestamps).2 = KBT.confidence self.
Proof.
  cbv zeta. destruct (predicts_spec self timestamps) as (Hall & Hc).
  rewrite Forall_lookup in Hall.
  split; [|split; [|exact Hc]].
  - intros k box Hk. exact (Hall k box Hk).
  - intros k box box' Hk Hk'.
    rewrite (Hall _ _ Hk), (Hall _ _ Hk'). apply Qle_refl.
Qed.

(** [predict_confidence_constant] at the second of two predicts of a new
    track. *)
Lemma predict_confidence_constant_witness :
  let trk := (KBT.init 0 moved_box 0).1 in
  exists box,
    (Session.predicts trk [1; 2]).1 !! 1%nat = Some box /\
    BoundingBox.confidence box = KBT.confidence trk * (95 # 100).
Proof.
  intros trk.
  destruct ((Session.predicts trk [1; 2]).1 !! 1%nat) as [box|] eqn:E;
    [|vm_compute in E; discriminate].
  exists box. split; [reflexivity|].
  exact (proj1 (predict_confidence_constant trk [1; 2]) 1%nat box E).
Defined.

(** C4 (as stated) fails: for a new track of confidence 1, the second of
    two consecutive predicts reports 0.95, not 0.95 squared. *)
Lemma predict_confidence_not_compounded :
  let trk := (KBT.init 0 moved_box 0).1 in
  exists box1 box2,
    (Session.predicts trk [1; 2]).1 = [box1; box2] /\
    BoundingBox.confidence box2 == 95 # 100 /\
    ~ BoundingBox.confidence box2 ==
      KBT.confidence trk * ((95 # 100) * (95 # 100)).
Proof.
  cbv zeta. eexists _, _. split; [reflexivity|].
  split; [reflexivity|]. vm_compute. discriminate.
Qed.

End KalmanFacts.

(** ** The associator *)

(** The model writes [map]; stdpp's lemmas are stated for [<$>]. *)
Ltac fold_fmap :=
  repeat match goal with
    | |- context [map ?f ?l] => change (map f l) with (f <$> l)
    | H : context [map ?f ?l] |- _ => change (map f l) with (f <$> l) in H
    end.

Section AssociatorFacts.
Implicit Types (m cands : list (nat * nat)) (ud ut : gset nat).

Lemma greedy_spec cands : forall m ud ut m' ud' ut',
  BT.greedy cands m ud ut = (m', ud', ut') ->
  NoDup m.*1 -> NoDup m.*2 ->
  (forall d, d ∈ ud <-> d ∈ m.*1) -> (forall t, t ∈ ut <-> t ∈ m.*2) ->
  NoDup m'.*1 /\ NoDup m'.*2 /\
  (forall d, d ∈ ud' <-> d ∈ m'.*1) /\ (forall t, t ∈ ut' <-> t ∈ m'.*2) /\
  (forall p, p ∈ m' -> p ∈ m \/ p ∈ cands).
Proof.
  induction cands as [|[d t] rest IH]; intros m ud ut m' ud' ut' Hg Hd Ht Hud Hut.
  - cbn in Hg. simplify_eq. repeat split; auto; apply Hud || apply Hut.
  - cbn [BT.greedy] in Hg.
    destruct (bool_decide (d ∉ ud) && bool_decide (t ∉ ut)) eqn:E.
    + apply andb_prop in E as [Ed Et].
      apply bool_decide_eq_true in Ed, Et.
      apply IH in Hg.
      * destruct Hg as (H1 & H2 & H3 & H4 & H5).
        repeat split; auto; try apply H3; try apply H4.
        intros p Hp. destruct (H5 p Hp) as [Hin|Hin].
        -- apply elem_of_app in Hin as [Hin|Hin]; [by left|].
           apply list_elem_of_singleton in Hin as ->. right. left.
        -- right. by right.
      * rewrite fmap_app. apply NoDup_app. repeat split; [done| |apply NoDup_singleton].
        intros x Hx. cbn. rewrite list_elem_of_singleton. intros ->.
        apply Ed. by apply Hud.
      * rewrite fmap_app. apply NoDup_app. repeat split; [done| |apply NoDup_singleton].
        intros x Hx. cbn. rewrite list_elem_of_singleton. intros ->.
        apply Et. by apply Hut.
      * intros d'. rewrite fmap_app, elem_of_app, elem_of_union, elem_of_singleton.
        cbn. rewrite list_elem_of_singleton, Hud. tauto.
      * intros t'. rewrite fmap_app, elem_of_app, elem_of_union, elem_of_singleton.
        cbn. rewrite list_elem_of_singleton, Hut. tauto.
    + apply IH in Hg; auto.
      destruct Hg as (H1 & H2 & H3 & H4 & H5).
      repeat split; auto; try apply H3; try apply H4.
      intros p Hp. destruct (H5 p Hp); [by left|right; by right].
Qed.

Lemma elem_of_insert_desc (c x : nat * nat * Q) l :
  x ∈ BT.insert_desc c l <-> x = c \/ x ∈ l.
Proof.
  induction l as [|e l IH]; cbn.
  - rewrite list_elem_of_singleton, elem_of_nil. tauto.
  - destruct (Qle_bool e.2 c.2).
    + rewrite !elem_of_cons. tauto.
    + rewrite !elem_of_cons, IH. tauto.
Qed.

Lemma elem_of_argsort_desc (x : nat * nat * Q) l :
  x ∈ BT.argsort_desc l <-> x ∈ l.
Proof.
  induction l as [|e l IH]; cbn; [done|].
  rewrite elem_of_insert_desc, elem_of_cons, IH. tauto.
Qed.

Lemma elem_of_concat {A : Type} (x : A) (ls : list (list A)) :
  x ∈ concat ls <-> exists l, x ∈ l /\ l ∈ ls.
Proof.
  induction ls as [|l ls IH]; cbn.
  - split; [by intros ?%elem_of_nil|by intros (? & _ & ?%elem_of_nil)].
  - rewrite elem_of_app, IH. split.
    + intros [H|(l' & H1 & H2)]; [exists l|exists l']; split; auto;
        [left|by right].
    + intros (l' & H1 & [->|H2]%elem_of_cons); [by left|right; eauto].
Qed.

Lemma elem_of_where_ge (mat : list (list Q)) thr (d t : nat) (v : Q) :
  (d, t, v) ∈ BT.where_ge mat thr ->
  exists row, mat !! d = Some row /\ row !! t = Some v.
Proof.
  unfold BT.where_ge. intros H.
  apply elem_of_concat in H as (cells & Hc & Hcells).
  apply elem_of_lookup_imap in Hcells as (i & row & -> & Hrow).
  apply list_elem_of_filter in Hc as [_ Hc].
  apply elem_of_lookup_imap in Hc as (j & v' & [= -> -> ->] & Hv).
  eauto.
Qed.

Lemma iou_matrix_lookup dets trks (d : nat) row :
  BT.iou_matrix dets trks !! d = Some row ->
  (d < length dets)%nat /\ length row = length trks.
Proof.
  unfold BT.iou_matrix. intros H. fold_fmap.
  apply list_lookup_fmap_Some in H as (det & -> & Hdet).
  split; [by eapply lookup_lt_Some|].
  by rewrite length_fmap.
Qed.

Lemma associate_spec dets trks thr m (uds uts : list nat) :
  BT._associate dets trks thr = (m, uds, uts) ->
  NoDup m.*1 /\ NoDup m.*2 /\
  Forall (fun p => (p.1 < length dets)%nat /\ (p.2 < length trks)%nat) m /\
  uds = filter (fun d => d ∉ m.*1) (seq 0 (length dets)) /\
  uts = filter (fun t => t ∉ m.*2) (seq 0 (length trks)).
Proof.
  unfold BT._associate. destruct (Nat.eqb_spec (length trks) 0) as [E|E].
  - intros H. simplify_eq. rewrite E. cbn.
    repeat split; try constructor.
    induction (seq 0 (length dets)) as [|a l IH]; [done|].
    rewrite filter_cons_True by (cbn; apply not_elem_of_nil). by f_equal.
  - fold_fmap. set (cs := BT.argsort_desc _).
    destruct (BT.greedy cs.*1 [] ∅ ∅) as [[m' ud] ut] eqn:G.
    intros H. simplify_eq.
    apply greedy_spec in G as (H1 & H2 & H3 & H4 & H5);
      [|constructor|constructor|set_solver|set_solver].
    repeat split; auto.
    + apply Forall_forall. intros [d t] Hp.
      destruct (H5 _ Hp) as [Hin|Hin]; [by apply elem_of_nil in Hin|].
      apply list_elem_of_fmap in Hin as ([[d' t'] v] & [= <- <-] & Hin).
      apply elem_of_argsort_desc, elem_of_where_ge in Hin as (row & Hrow & Hv).
      apply iou_matrix_lookup in Hrow as [Hd Hlen].
      apply lookup_lt_Some in Hv. cbn. lia.
    + apply list_filter_iff. intros d. by rewrite H3.
    + apply list_filter_iff. intros t. by rewrite H4.
Qed.

End AssociatorFacts.

(** ** The loops of [ByteTracker.update] *)

Section LoopFacts.
Import Session.

Lemma carried_refl (a : KBT.t) : carried a a.
Proof. unfold carried. split; [done|split; [lia|by left]]. Qed.

Lemma update_matched_spec (pairs : list (nat * nat)) dets ts :
  forall tracked tracked' : list KBT.t,
  BT.update_matched pairs dets ts tracked = Some tracked' ->
  Forall2 carried tracked tracked' /\
  (forall i : nat, i ∉ pairs.*2 -> tracked' !! i = tracked !! i).
Proof.
  induction pairs as [|[d i] rest IH]; intros tracked tracked' H.
  - cbn in H. simplify_eq. split; [|done].
    apply Forall2_same_length_lookup. split; [done|].
    intros j a b Ha Hb. simplify_eq. apply carried_refl.
  - cbn [BT.update_matched] in H.
    destruct (tracked !! i) as [trk|] eqn:Ei; [|discriminate].
    destruct (dets !! d) as [det|]; [|discriminate].
    destruct (KBT.update trk det ts) as [trk'|] eqn:Eu; [|discriminate].
    apply IH in H as [Hc Hl]. split.
    + apply Forall2_same_length_lookup.
      apply Forall2_length in Hc as Hlen. rewrite length_insert in Hlen.
      split; [done|]. intros j a b Ha Hb.
      rewrite Forall2_lookup in Hc. specialize (Hc j).
      rewrite Hb in Hc. destruct (decide (i = j)) as [->|Hne].
      * rewrite list_lookup_insert_eq in Hc by (by eapply lookup_lt_Some).
        inversion Hc as [x y Hxy|]; subst.
        rewrite Ha in Ei. injection Ei as ->.
        destruct Hxy as (Hid & Hs & Hor).
        apply kbt_update_fields in Eu as (Hid' & Ht & Hs' & _).
        split; [congruence|]. split; [lia|].
        right. destruct Hor as [->|Hz]; done.
      * rewrite list_lookup_insert_ne, Ha in Hc by done.
        by inversion Hc.
    + intros j Hj. cbn in Hj. rewrite not_elem_of_cons in Hj.
      destruct Hj as [Hji Hj]. rewrite Hl by done.
      by rewrite list_lookup_insert_ne.
Qed.

Lemma carried_trans_update (a b c : KBT.t) :
  carried a b -> carried b c -> carried a c.
Proof.
  intros (Hid & Hs & Hor) (Hid' & Hs' & Hor').
  split; [congruence|]. split; [lia|].
  destruct Hor' as [->|Hz]; [exact Hor|by right].
Qed.

Lemma create_tracks_spec thr (dets : list BoundingBox.t) ts :
  forall (count count' : Z) (new : list KBT.t),
  BT.create_tracks thr dets ts count = (new, count') ->
  KBT.id <$> new = seqZ count (Z.of_nat (length new)) /\
  count' = count + Z.of_nat (length new) /\
  Forall (fun trk => KBT.time_since_update trk = 0 /\ KBT.hit_streak trk = 0)
         new.
Proof.
  induction dets as [|det rest IH]; intros count count' new H.
  - cbn in H. simplify_eq. cbn. split; [done|]. split; [lia|constructor].
  - cbn [BT.create_tracks] in H.
    destruct (Qle_bool thr (BoundingBox.confidence det)).
    + unfold KBT.init in H.
      destruct (BT.create_tracks thr rest ts (count + 1)) as [others c2] eqn:E.
      simplify_eq. apply IH in E as (Hids & Hc & Hall).
      split; [|split].
      * cbn [length]. rewrite seqZ_cons by lia. cbn [fmap list_fmap KBT.id].
        f_equal. fold (fmap (M:=list) KBT.id others).
        rewrite Hids. f_equal; lia.
      * cbn [length]. lia.
      * constructor; [by cbn|done].
    + by apply IH.
Qed.

Lemma evict_loop_app buf (pre : list KBT.t) : forall suf lost0,
  BT.evict_loop buf (reverse (seq 0 (length pre))) (pre ++ suf) lost0 =
  Some (filter (fun trk => KBT.time_since_update trk <= buf) pre ++ suf,
        lost0 ++
        reverse (filter (fun trk => buf < KBT.time_since_update trk) pre)).
Proof.
  induction pre as [|a pre IH] using rev_ind; intros suf lost0.
  - cbn. by rewrite app_nil_r.
  - rewrite length_app, Nat.add_1_r, seq_S, reverse_snoc.
    cbn [BT.evict_loop Nat.add].
    rewrite <- app_assoc. cbn [app].
    rewrite (list_lookup_middle pre suf a (length pre)) by done.
    cbn [mbind option_bind].
    rewrite !filter_app, !filter_cons, !filter_nil.
    destruct (Z.ltb_spec buf (KBT.time_since_update a)) as [Hlt|Hge].
    + rewrite delete_middle. rewrite IH.
      destruct (decide (KBT.time_since_update a <= buf)); [lia|].
      destruct (decide (buf < KBT.time_since_update a)); [|lia].
      rewrite app_nil_r, reverse_app, app_assoc. by cbn.
    + rewrite IH.
      destruct (decide (KBT.time_since_update a <= buf)); [|lia].
      destruct (decide (buf < KBT.time_since_update a)); [lia|].
      rewrite app_nil_r, <- app_assoc. by cbn.
Qed.

Lemma evict_loop_spec buf (tracked : list KBT.t) :
  BT.evict_loop buf (reverse (seq 0 (length tracked))) tracked [] =
  Some (filter (fun trk => KBT.time_since_update trk <= buf) tracked,
        reverse (filter (fun trk => buf < KBT.time_since_update trk) tracked)).
Proof.
  pose proof (evict_loop_app buf tracked [] []) as H.
  by rewrite !app_nil_r in H.
Qed.

End LoopFacts.

(** ** One call of [ByteTracker.update] *)

Section FrameFacts.
Import Session.

Lemma run_update_inv count self dets ts f :
  BT.run_update count self dets ts = Some f ->
  exists unmatched_dets tracked1 tracked2 unmatched_boxes,
    BT._associate (high_conf_dets self dets) (predicted self ts)
                  (BT.match_thresh self) =
      (BT.matches f, unmatched_dets, BT.unmatched_trks f) /\
    BT.update_matched (BT.matches f) (high_conf_dets self dets) ts
                      (predicted self ts) = Some tracked1 /\
    second_round self dets ts f tracked1 tracked2 /\
    mapM (fun i => high_conf_dets self dets !! i) unmatched_dets =
      Some unmatched_boxes /\
    BT.create_tracks (BT.track_thresh self) unmatched_boxes ts count =
      (BT.new_tracks f, BT.count_after f) /\
    BT.tracked_stracks (BT.self_after f) =
      filter (fun trk => KBT.time_since_update trk <= BT.track_buffer self)
             (tracked2 ++ BT.new_tracks f) /\
    BT.lost f =
      reverse (filter (fun trk =>
                         BT.track_buffer self < KBT.time_since_update trk)
                      (tracked2 ++ BT.new_tracks f)) /\
    BT.lost_stracks (BT.self_after f) =
      filter (fun trk => KBT.time_since_update trk <= BT.track_buffer self)
             (BT.lost_stracks self ++ BT.lost f) /\
    BT.tracking_data f =
      BT.report ts <$>
        filter (fun trk => 3 <= KBT.hit_streak trk)
               (BT.tracked_stracks (BT.self_after f)) /\
    BT.track_buffer (BT.self_after f) = BT.track_buffer self /\
    BT.track_thresh (BT.self_after f) = BT.track_thresh self /\
    BT.match_thresh (BT.self_after f) = BT.match_thresh self /\
    BT.frame_id (BT.self_after f) = BT.frame_id self + 1 /\
    BT.active_tracks (BT.self_after f) =
      Z.of_nat (length (BT.tracking_data f)).
Proof.
  unfold BT.run_update. fold_fmap.
  fold (high_conf_dets self dets) (low_conf_dets self dets) (predicted self ts).
  destruct (BT._associate (high_conf_dets self dets) (predicted self ts)
              (BT.match_thresh self)) as [[ms uds] uts] eqn:EA.
  destruct (BT.update_matched ms _ ts _) as [tracked1|] eqn:E1;
    [|discriminate]. cbn [mbind option_bind].
  assert (Htail : forall ml tracked2,
    second_round self dets ts
      (BT.mk_frame ms uts ml [] [] [] 0 self) tracked1 tracked2 ->
    (mapM (fun i => high_conf_dets self dets !! i) uds ≫=
       fun unmatched_boxes =>
         let '(new_tracks, count1) :=
           BT.create_tracks (BT.track_thresh self) unmatched_boxes ts count in
         BT.evict_loop (BT.track_buffer self)
           (reverse (seq 0 (length (tracked2 ++ new_tracks))))
           (tracked2 ++ new_tracks) [] ≫=
         fun '(tracked4, lost) =>
           Some (BT.mk_frame ms uts ml new_tracks lost
                   (BT.report ts <$>
                      filter (fun track => 3 <= KBT.hit_streak track) tracked4)
                   count1
                   (BT.mk (BT.track_thresh self) (BT.track_buffer self)
                      (BT.match_thresh self) (BT.frame_rate self) tracked4
                      (filter (fun track => KBT.time_since_update track <=
                                            BT.track_buffer self)
                              (BT.lost_stracks self ++ lost))
                      (BT.removed_stracks self) (BT.frame_id self + 1)
                      (BT.total_tracks self + Z.of_nat (length new_tracks))
                      (Z.of_nat (length
                         (BT.report ts <$>
                            filter (fun track => 3 <= KBT.hit_streak track)
                                   tracked4)))))) = Some f ->
    exists unmatched_dets tracked1' tracked2' unmatched_boxes,
      (ms, uds, uts) = (BT.matches f, unmatched_dets, BT.unmatched_trks f) /\
      BT.update_matched (BT.matches f) (high_conf_dets self dets) ts
                        (predicted self ts) = Some tracked1' /\
      second_round self dets ts f tracked1' tracked2' /\
      mapM (fun i => high_conf_dets self dets !! i) unmatched_dets =
        Some unmatched_boxes /\
      BT.create_tracks (BT.track_thresh self) unmatched_boxes ts count =
        (BT.new_tracks f, BT.count_after f) /\
      BT.tracked_stracks (BT.self_after f) =
        filter (fun trk => KBT.time_since_update trk <= BT.track_buffer self)
               (tracked2' ++ BT.new_tracks f) /\
      BT.lost f =
        reverse (filter (fun trk =>
                           BT.track_buffer self < KBT.time_since_update trk)
                        (tracked2' ++ BT.new_tracks f)) /\
      BT.lost_stracks (BT.self_after f) =
        filter (fun trk => KBT.time_since_update trk <= BT.track_buffer self)
               (BT.lost_stracks self ++ BT.lost f) /\
      BT.tracking_data f =
        BT.report ts <$>
          filter (fun trk => 3 <= KBT.hit_streak trk)
                 (BT.tracked_stracks (BT.self_after f)) /\
      BT.track_buffer (BT.self_after f) = BT.track_buffer self /\
      BT.track_thresh (BT.self_after f) = BT.track_thresh self /\
      BT.match_thresh (BT.self_after f) = BT.match_thresh self /\
      BT.frame_id (BT.self_after f) = BT.frame_id self + 1 /\
      BT.active_tracks (BT.self_after f) =
        Z.of_nat (length (BT.tracking_data f))).
  { intros ml tracked2 Hsecond.
    destruct (mapM _ uds) as [boxes|] eqn:EB; [|discriminate].
    cbn [mbind option_bind].
    destruct (BT.create_tracks _ boxes ts count) as [new count1] eqn:EC.
    rewrite evict_loop_spec. cbn [option_bind].
    intros H. apply (inj Some) in H. subst f.
    exists uds, tracked1, tracked2, boxes. cbn.
    repeat split; done. }
  destruct (Nat.ltb 0 (length (low_conf_dets self dets)) &&
            Nat.ltb 0 (length uts)).
  - destruct (mapM _ uts) as [ult|] eqn:EU; [|discriminate].
    cbn [mbind option_bind].
    destruct (BT._associate (low_conf_dets self dets) ult (1 # 2))
      as [[ml uds'] uts'] eqn:EA2.
    destruct (mapM _ ml) as [pairs|] eqn:EP; [|discriminate].
    cbn [mbind option_bind].
    destruct (BT.update_matched pairs _ ts tracked1) as [tracked2|] eqn:E3;
      [|discriminate].
    cbn [mbind option_bind]. apply (Htail ml tracked2).
    right. exists ult, pairs, uds', uts'. done.
  - cbn [mbind option_bind]. apply (Htail [] tracked1). by left.
Qed.

End FrameFacts.

(** ** Positions of the high- and low-confidence detections *)

Section PositionFacts.
Import Session.
Context {A : Type}.
Implicit Types (p q : A -> bool) (l : list A) (k i j : nat).

Lemma positions_from_bounds p l : forall k i,
  i ∈ positions_from p k l ->
  (k <= i)%nat /\ exists a, l !! (i - k)%nat = Some a /\ p a = true.
Proof.
  induction l as [|a l IH]; intros k i Hi; cbn in Hi.
  - by apply elem_of_nil in Hi.
  - destruct (p a) eqn:Ep.
    + apply elem_of_cons in Hi as [->|Hi].
      * split; [lia|]. exists a. by rewrite Nat.sub_diag.
      * apply IH in Hi as (Hle & b & Hb & Hp). split; [lia|].
        exists b. split; [|done].
        replace (i - k)%nat with (S (i - S k)) by lia. done.
    + apply IH in Hi as (Hle & b & Hb & Hp). split; [lia|].
      exists b. split; [|done].
      replace (i - k)%nat with (S (i - S k)) by lia. done.
Qed.

Lemma positions_from_NoDup p l : forall k, NoDup (positions_from p k l).
Proof.
  induction l as [|a l IH]; intros k; cbn; [constructor|].
  destruct (p a); [|apply IH].
  constructor; [|apply IH].
  intros Hin. apply positions_from_bounds in Hin as [Hle _]. lia.
Qed.

Lemma positions_from_length p l : forall k,
  length (positions_from p k l) = length (filter (fun a => Is_true (p a)) l).
Proof.
  induction l as [|a l IH]; intros k; [done|].
  cbn [positions_from]. destruct (p a) eqn:Ep.
  - rewrite filter_cons_True by (rewrite Ep; exact I). cbn. by rewrite IH.
  - rewrite filter_cons_False by (rewrite Ep; exact id). apply IH.
Qed.

Lemma positions_from_disjoint p q l k i :
  (forall a, p a = true -> q a = true -> False) ->
  i ∈ positions_from p k l -> i ∈ positions_from q k l -> False.
Proof.
  intros Hpq (_ & a & Ha & Hp)%positions_from_bounds
             (_ & b & Hb & Hq)%positions_from_bounds.
  simplify_eq. eauto.
Qed.

(** The [j]-th element that passes [p] sits at the [j]-th position listed. *)
Lemma positions_from_lookup p l : forall k j i,
  positions_from p k l !! j = Some i ->
  filter (fun a => Is_true (p a)) l !! j = l !! (i - k)%nat.
Proof.
  induction l as [|a l IH]; intros k j i Hj; [done|].
  cbn [positions_from] in Hj. destruct (p a) eqn:Ep.
  - rewrite filter_cons_True by (rewrite Ep; exact I).
    destruct j as [|j]; cbn in Hj.
    + simplify_eq. by rewrite Nat.sub_diag.
    + assert (Hin : i ∈ positions_from p (S k) l)
        by (by eapply list_elem_of_lookup_2).
      apply positions_from_bounds in Hin as [Hle _].
      replace (i - k)%nat with (S (i - S k)) by lia. cbn. by apply IH.
  - rewrite filter_cons_False by (rewrite Ep; exact id).
    assert (Hin : i ∈ positions_from p (S k) l)
      by (by eapply list_elem_of_lookup_2).
    apply positions_from_bounds in Hin as [Hle _].
    replace (i - k)%nat with (S (i - S k)) by lia. cbn. by apply IH.
Qed.

End PositionFacts.

(** [high_conf_dets[d]] is [detections[high_positions[d]]], and likewise
    for the low-confidence detections. *)
Lemma high_positions_lookup self (detections : list BoundingBox.t) (d i : nat) :
  Session.high_positions self detections !! d = Some i ->
  Session.high_conf_dets self detections !! d = detections !! i.
Proof.
  intros H. apply positions_from_lookup in H.
  by rewrite Nat.sub_0_r in H.
Qed.

Lemma low_positions_lookup self (detections : list BoundingBox.t) (d i : nat) :
  Session.low_positions self detections !! d = Some i ->
  Session.low_conf_dets self detections !! d = detections !! i.
Proof.
  intros H. apply positions_from_lookup in H.
  by rewrite Nat.sub_0_r in H.
Qed.

(** ** Matching within one frame *)

Section MatchingFacts.
Import Session.

Lemma NoDup_omap_lookup {A : Type} (l : list A) (js : list nat) :
  NoDup l -> NoDup js -> NoDup (omap (fun j => l !! j) js).
Proof.
  intros Hl. induction 1 as [|j js Hj Hjs IH]; cbn; [constructor|].
  destruct (l !! j) as [a|] eqn:Ea; [|done].
  constructor; [|done].
  intros (j' & Hj' & Ea')%list_elem_of_omap.
  assert (j = j') by exact (NoDup_lookup l j j' a Hl Ea Ea'). by subst.
Qed.

Lemma omap_lookup_length {A : Type} (l : list A) (js : list nat) :
  Forall (fun j => (j < length l)%nat) js ->
  length (omap (fun j => l !! j) js) = length js.
Proof.
  induction 1 as [|j js Hj _ IH]; cbn; [done|].
  destruct (lookup_lt_is_Some_2 l j Hj) as [a ->]. cbn. by rewrite IH.
Qed.

Lemma omap_fmap_compose {A B C : Type} (g : A -> B) (h : B -> option C)
    (l : list A) :
  omap h (g <$> l) = omap (fun a => h (g a)) l.
Proof.
  induction l as [|a l IH]; cbn; [done|].
  destruct (h (g a)); by rewrite <- IH.
Qed.

Lemma second_round_pairs (uts : list nat) (ml pairs : list (nat * nat)) :
  mapM (fun m : nat * nat => track_idx ← uts !! m.2; Some (m.1, track_idx))
       ml = Some pairs ->
  pairs.*2 = omap (fun m : nat * nat => uts !! m.2) ml.
Proof.
  revert pairs. induction ml as [|m ml IH]; intros pairs H.
  - rewrite mapM_Some in H. by inversion H.
  - rewrite mapM_Some in H. inversion H as [|? p ? ps Hp Hps]; subst.
    apply mapM_Some in Hps. apply IH in Hps. cbn.
    destruct (uts !! m.2) as [ti|]; [|discriminate]. cbn in Hp.
    simplify_eq. cbn. by f_equal.
Qed.

Lemma high_low_exclusive (thr : Q) (d : BoundingBox.t) :
  Qle_bool thr (BoundingBox.confidence d) = true ->
  Py.ltb (BoundingBox.confidence d) thr = true -> False.
Proof. unfold Py.ltb. intros ->. discriminate. Qed.

Lemma second_round_facts self dets ts f (tracked1 tracked2 : list KBT.t) :
  second_round self dets ts f tracked1 tracked2 ->
  NoDup (BT.matches_low f).*1 /\ NoDup (BT.matches_low f).*2 /\
  Forall (fun p : nat * nat =>
            (p.1 < length (low_conf_dets self dets))%nat /\
            (p.2 < length (BT.unmatched_trks f))%nat)
         (BT.matches_low f) /\
  Forall2 carried tracked1 tracked2 /\
  (forall i : nat,
     i ∉ omap (fun m : nat * nat => BT.unmatched_trks f !! m.2)
              (BT.matches_low f) ->
     tracked2 !! i = tracked1 !! i).
Proof.
  intros [[-> ->]|(ult & pairs & uds & uts & Hult & Ha & Hp & Hu)].
  - repeat split; try constructor.
    apply Forall2_same_length_lookup. split; [done|].
    intros i a b Ha Hb. simplify_eq. apply carried_refl.
  - apply associate_spec in Ha as (H1 & H2 & H3 & _ & _).
    apply mapM_Some, Forall2_length in Hult.
    apply update_matched_spec in Hu as [Hc Hl].
    rewrite (second_round_pairs _ _ _ Hp) in Hl.
    rewrite Hult. done.
Qed.

Lemma run_update_summary count self dets ts f :
  BT.run_update count self dets ts = Some f ->
  exists tracked2 : list KBT.t,
    Forall2 carried (predicted self ts) tracked2 /\
    (forall i : nat, i ∉ BT.matched_tracks f ->
       tracked2 !! i = predicted self ts !! i) /\
    BT.tracked_stracks (BT.self_after f) =
      filter (fun trk => KBT.time_since_update trk <= BT.track_buffer self)
             (tracked2 ++ BT.new_tracks f) /\
    BT.lost f =
      reverse (filter (fun trk =>
                         BT.track_buffer self < KBT.time_since_update trk)
                      (tracked2 ++ BT.new_tracks f)) /\
    KBT.id <$> BT.new_tracks f =
      seqZ count (Z.of_nat (length (BT.new_tracks f))) /\
    BT.count_after f = count + Z.of_nat (length (BT.new_tracks f)) /\
    Forall (fun trk => KBT.time_since_update trk = 0 /\
                       KBT.hit_streak trk = 0) (BT.new_tracks f).
Proof.
  intros (uds & tracked1 & tracked2 & boxes & Ha & Hu & Hs & _ & Hc & Ht &
          Hl & _)%run_update_inv.
  exists tracked2.
  apply update_matched_spec in Hu as [Hc1 Hl1].
  apply second_round_facts in Hs as (_ & _ & _ & Hc2 & Hl2).
  apply create_tracks_spec in Hc as (Hids & Hcount & Hnew).
  split; [|split; [|done]].
  - eapply Forall2_trans; [|exact Hc1|exact Hc2].
    intros a b c. apply carried_trans_update.
  - intros i Hi. unfold BT.matched_tracks in Hi.
    rewrite not_elem_of_app in Hi. destruct Hi as [Hi1 Hi2].
    fold_fmap. rewrite Hl2, Hl1; done.
Qed.

Lemma matched_tracks_facts count self dets ts f :
  BT.run_update count self dets ts = Some f ->
  NoDup (BT.matched_tracks f) /\
  length (BT.matched_tracks f) =
    (length (BT.matches f) + length (BT.matches_low f))%nat /\
  Forall (fun i => (i < length (BT.tracked_stracks self))%nat)
         (BT.matched_tracks f).
Proof.
  intros (uds & tracked1 & tracked2 & boxes & Ha & _ & Hs & _)%run_update_inv.
  apply associate_spec in Ha as (Hd1 & Ht1 & Hr1 & _ & Huts).
  apply second_round_facts in Hs as (Hd2 & Ht2 & Hr2 & _ & _).
  unfold predicted in *. rewrite length_fmap in *.
  set (uts := BT.unmatched_trks f) in *.
  assert (Huts_nd : NoDup uts)
    by (rewrite Huts; apply NoDup_filter, NoDup_seq).
  assert (Hidx : Forall (fun j => (j < length uts)%nat) (BT.matches_low f).*2).
  { apply Forall_fmap. eapply Forall_impl; [exact Hr2|]. by intros p [_ ?]. }
  unfold BT.matched_tracks. fold uts.
  rewrite <- (omap_fmap_compose snd (fun j => uts !! j)).
  split; [|split].
  - apply NoDup_app. split; [done|]. split.
    + intros i Hi (j & _ & Hj)%list_elem_of_omap.
      apply list_elem_of_lookup_2 in Hj. rewrite Huts in Hj.
      by apply list_elem_of_filter in Hj as [Hj _].
    + by apply NoDup_omap_lookup.
  - rewrite length_app, omap_lookup_length, !length_fmap; done.
  - apply Forall_app. split.
    + apply Forall_fmap. eapply Forall_impl; [exact Hr1|]. by intros p [_ ?].
    + apply Forall_forall. intros i (j & _ & Hj)%list_elem_of_omap.
      apply list_elem_of_lookup_2 in Hj. rewrite Huts in Hj.
      apply list_elem_of_filter in Hj as [_ Hj].
      apply elem_of_seq in Hj. lia.
Qed.

Lemma matched_detections_facts count self dets ts f :
  BT.run_update count self dets ts = Some f ->
  NoDup (matched_detections self dets f) /\
  length (matched_detections self dets f) =
    (length (BT.matches f) + length (BT.matches_low f))%nat /\
  Forall (fun i => (i < length dets)%nat) (matched_detections self dets f).
Proof.
  intros (uds & tracked1 & tracked2 & boxes & Ha & _ & Hs & _)%run_update_inv.
  apply associate_spec in Ha as (Hd1 & _ & Hr1 & _ & _).
  apply second_round_facts in Hs as (Hd2 & _ & Hr2 & _ & _).
  unfold matched_detections.
  set (hp := high_positions self dets). set (lp := low_positions self dets).
  assert (Hhp : length hp = length (high_conf_dets self dets))
    by apply positions_from_length.
  assert (Hlp : length lp = length (low_conf_dets self dets))
    by apply positions_from_length.
  rewrite <- (omap_fmap_compose fst (fun j => hp !! j)).
  rewrite <- (omap_fmap_compose fst (fun j => lp !! j)).
  split; [|split].
  - apply NoDup_app. split; [|split].
    + apply NoDup_omap_lookup; [apply positions_from_NoDup|done].
    + intros i (j & _ & Hj)%list_elem_of_omap (j' & _ & Hj')%list_elem_of_omap.
      apply list_elem_of_lookup_2 in Hj, Hj'.
      eapply positions_from_disjoint; [|exact Hj|exact Hj'].
      intros d. apply high_low_exclusive.
    + apply NoDup_omap_lookup; [apply positions_from_NoDup|done].
  - rewrite length_app, !omap_lookup_length, !length_fmap; [done| |].
    + apply Forall_fmap. eapply Forall_impl; [exact Hr2|].
      intros p [? _]. cbn. lia.
    + apply Forall_fmap. eapply Forall_impl; [exact Hr1|].
      intros p [? _]. cbn. lia.
  - apply Forall_app. split; apply Forall_forall;
      intros i (j & _ & Hj)%list_elem_of_omap;
      apply list_elem_of_lookup_2, positions_from_bounds in Hj
        as (_ & a & Ha & _);
      apply lookup_lt_Some in Ha; lia.
Qed.

(** C5: in one call of [update], covering both association rounds, no
    position of [detections] and no position of [tracked_stracks] occurs in
    two matched pairs; every matched pair of either round is counted. *)
Theorem update_matches_at_most_once count self detections timestamp f :
  BT.run_update count self detections timestamp = Some f ->
  NoDup (matched_detections self detections f) /\
  NoDup (BT.matched_tracks f) /\
  length (matched_detections self detections f) =
    (length (BT.matches f) + length (BT.matches_low f))%nat /\
  length (BT.matched_tracks f) =
    (length (BT.matches f) + length (BT.matches_low f))%nat /\
  Forall (fun i => (i < length detections)%nat)
         (matched_detections self detections f) /\
  Forall (fun i => (i < length (BT.tracked_stracks self))%nat)
         (BT.matched_tracks f).
Proof.
  intros H.
  destruct (matched_detections_facts _ _ _ _ _ H) as (? & ? & ?).
  destruct (matched_tracks_facts _ _ _ _ _ H) as (? & ? & ?).
  done.
Qed.

End MatchingFacts.

(** ** Track lifecycle *)

Section LifecycleFacts.
Import Session Examples.

Lemma carried_ids (l k : list KBT.t) :
  Forall2 carried l k -> KBT.id <$> k = KBT.id <$> l.
Proof.
  induction 1 as [|a b l k (Hid & _) _ IH]; cbn; [done|]. by f_equal.
Qed.

Lemma predicted_ids self ts :
  KBT.id <$> predicted self ts = KBT.id <$> BT.tracked_stracks self.
Proof. unfold predicted. rewrite <- list_fmap_compose. done. Qed.

Lemma predicted_lookup self ts (i : nat) :
  predicted self ts !! i =
  (fun trk => (KBT.predict trk ts).2) <$> BT.tracked_stracks self !! i.
Proof. unfold predicted. apply list_lookup_fmap. Qed.

Lemma NoDup_fmap_filter {A B : Type} (g : A -> B) (P : A -> Prop)
    `{forall a, Decision (P a)} (l : list A) :
  NoDup (g <$> l) -> NoDup (g <$> filter P l).
Proof.
  induction l as [|a l IH]; [done|]. cbn [fmap list_fmap].
  intros [Ha Hl]%NoDup_cons. rewrite filter_cons.
  destruct (decide (P a)); [|by apply IH].
  cbn [fmap list_fmap]. apply NoDup_cons. split; [|by apply IH].
  intros (b & Hb & Hin)%list_elem_of_fmap.
  apply list_elem_of_filter in Hin as [_ Hin].
  apply Ha. rewrite Hb. by apply list_elem_of_fmap_2.
Qed.

(** Every active track after a frame was active before or is new. *)
Lemma run_update_ids count self dets ts f :
  BT.run_update count self dets ts = Some f ->
  ids_below count self ->
  ids_below (BT.count_after f) (BT.self_after f) /\
  count <= BT.count_after f /\
  BT.track_buffer (BT.self_after f) = BT.track_buffer self /\
  (forall k, k ∈ KBT.id <$> BT.tracked_stracks (BT.self_after f) ->
     k ∈ KBT.id <$> BT.tracked_stracks self \/ count <= k) /\
  Forall (fun trk => KBT.id trk < BT.count_after f) (BT.lost f) /\
  Forall (fun trk => count <= KBT.id trk) (BT.new_tracks f).
Proof.
  intros Hrun [Hnd Hlt].
  destruct (run_update_inv _ _ _ _ _ Hrun)
    as (? & ? & ? & ? & _ & _ & _ & _ & _ & _ & _ & _ & _ & Hbuf & _).
  destruct (run_update_summary _ _ _ _ _ Hrun)
    as (tracked2 & Hc & _ & Ht & Hl & Hids & Hcount & _).
  apply carried_ids in Hc. rewrite predicted_ids in Hc.
  assert (Hall : Forall (fun trk => KBT.id trk < BT.count_after f)
                        (tracked2 ++ BT.new_tracks f)).
  { apply Forall_app. split.
    - apply Forall_forall. intros trk Hin.
      assert (Hk : KBT.id trk ∈ KBT.id <$> BT.tracked_stracks self)
        by (rewrite <- Hc; by apply list_elem_of_fmap_2).
      apply list_elem_of_fmap in Hk as (trk0 & -> & Hin0).
      rewrite Forall_forall in Hlt. specialize (Hlt _ Hin0). lia.
    - apply Forall_forall. intros trk Hin.
      assert (Hk : KBT.id trk ∈ KBT.id <$> BT.new_tracks f)
        by (by apply list_elem_of_fmap_2).
      rewrite Hids in Hk. apply elem_of_seqZ in Hk. lia. }
  assert (Hnew : Forall (fun trk => count <= KBT.id trk) (BT.new_tracks f)).
  { apply Forall_forall. intros trk Hin.
    assert (Hk : KBT.id trk ∈ KBT.id <$> BT.new_tracks f)
      by (by apply list_elem_of_fmap_2).
    rewrite Hids in Hk. apply elem_of_seqZ in Hk. lia. }
  split; [split|split; [lia|split; [done|split; [|split]]]].
  - rewrite Ht. apply NoDup_fmap_filter. rewrite fmap_app, Hc, Hids.
    apply NoDup_app. split; [done|]. split; [|apply NoDup_seqZ].
    intros k Hk Hk'%elem_of_seqZ.
    apply list_elem_of_fmap in Hk as (trk & -> & Hin).
    rewrite Forall_forall in Hlt. specialize (Hlt _ Hin). lia.
  - rewrite Ht. rewrite Forall_forall in Hall |- *.
    intros trk [_ Hin]%list_elem_of_filter. by apply Hall.
  - intros k (trk & -> & Hin)%list_elem_of_fmap. rewrite Ht in Hin.
    apply list_elem_of_filter in Hin as [_ Hin].
    apply elem_of_app in Hin as [Hin|Hin].
    + left. rewrite <- Hc. by apply list_elem_of_fmap_2.
    + right. rewrite Forall_forall in Hnew. by apply Hnew.
  - rewrite Hl. rewrite Forall_forall in Hall |- *.
    intros trk Hin. apply elem_of_reverse, list_elem_of_filter in Hin as [_ Hin].
    by apply Hall.
  - done.
Qed.

(** A track that receives no detection is only predicted; it stays active
    when its [time_since_update] is still within the buffer and is evicted
    otherwise. *)
Lemma run_update_unmatched count self dets ts f (i : nat) trk :
  BT.run_update count self dets ts = Some f ->
  BT.tracked_stracks self !! i = Some trk ->
  i ∉ BT.matched_tracks f ->
  (KBT.time_since_update trk + 1 <= BT.track_buffer self ->
     (KBT.predict trk ts).2 ∈ BT.tracked_stracks (BT.self_after f)) /\
  (BT.track_buffer self < KBT.time_since_update trk + 1 ->
     (KBT.predict trk ts).2 ∈ BT.lost f).
Proof.
  intros Hrun Hi Hun.
  destruct (run_update_summary _ _ _ _ _ Hrun)
    as (tracked2 & _ & Hl2 & Ht & Hl & _).
  specialize (Hl2 i Hun). rewrite predicted_lookup, Hi in Hl2. cbn in Hl2.
  apply list_elem_of_lookup_2 in Hl2.
  split; intros Hb.
  - rewrite Ht. apply list_elem_of_filter. split; [by cbn|].
    apply elem_of_app. by left.
  - rewrite Hl. apply elem_of_reverse, list_elem_of_filter. split; [by cbn|].
    apply elem_of_app. by left.
Qed.

(** C1 (as amended): on a frame in which a track receives no detection its
    hit streak keeps its value, and the track stays active while its
    [time_since_update] is within the buffer; the list returned by [update]
    holds exactly the active tracks whose hit streak is at least 3. *)
Theorem hit_streak_kept_and_reported count self detections timestamp f :
  BT.run_update count self detections timestamp = Some f ->
  (forall (i : nat) trk,
     BT.tracked_stracks self !! i = Some trk ->
     i ∉ BT.matched_tracks f ->
     KBT.hit_streak (KBT.predict trk timestamp).2 = KBT.hit_streak trk /\
     (KBT.time_since_update trk + 1 <= BT.track_buffer self ->
        (KBT.predict trk timestamp).2 ∈
          BT.tracked_stracks (BT.self_after f))) /\
  (forall td,
     td ∈ BT.tracking_data f <->
     exists trk, trk ∈ BT.tracked_stracks (BT.self_after f) /\
                 3 <= KBT.hit_streak trk /\
                 td = BT.report timestamp trk).
Proof.
  intros Hrun. split.
  - intros i trk Hi Hun. split; [reflexivity|].
    by destruct (run_update_unmatched _ _ _ _ _ _ _ Hrun Hi Hun).
  - intros td.
    destruct (run_update_inv _ _ _ _ _ Hrun)
      as (? & ? & ? & ? & _ & _ & _ & _ & _ & _ & _ & _ & Hdata & _).
    rewrite Hdata, list_elem_of_fmap. split.
    + intros (trk & -> & [Hs Hin]%list_elem_of_filter). eauto.
    + intros (trk & Hin & Hs & ->). exists trk. split; [done|].
      by apply list_elem_of_filter.
Qed.

(** [hit_streak_kept_and_reported] at the frame without detections that
    follows [warmup]. *)
Lemma hit_streak_kept_and_reported_witness :
  exists f,
    BT.run_update (state_after warmup).1 (state_after warmup).2 []
                  (4 # 30) = Some f /\
    forall td,
      td ∈ BT.tracking_data f <->
      exists trk, trk ∈ BT.tracked_stracks (BT.self_after f) /\
                  3 <= KBT.hit_streak trk /\
                  td = BT.report (4 # 30) trk.
Proof.
  destruct (BT.run_update (state_after warmup).1 (state_after warmup).2 []
                          (4 # 30)) as [f|] eqn:E;
    [|vm_compute in E; discriminate].
  exists f. split; [reflexivity|].
  exact (proj2 (hit_streak_kept_and_reported _ _ _ _ _ E)).
Defined.

(** C1 (as stated) fails: after [warmup] the only track has hit streak 3;
    the next frame has no detection, so the track is unmatched, and after
    that frame its hit streak is still 3 and it is still reported. *)
Lemma hit_streak_not_reset_on_miss :
  exists f,
    KBT.hit_streak <$> BT.tracked_stracks (state_after warmup).2 = [3] /\
    BT.run_update (state_after warmup).1 (state_after warmup).2 []
                  (4 # 30) = Some f /\
    BT.matched_tracks f = [] /\
    KBT.hit_streak <$> BT.tracked_stracks (BT.self_after f) = [3] /\
    TrackingData.track_id <$> BT.tracking_data f = [0].
Proof.
  destruct (BT.run_update (state_after warmup).1 (state_after warmup).2 []
                          (4 # 30)) as [f|] eqn:E;
    [|vm_compute in E; discriminate].
  exists f. vm_compute in E. injection E as <-.
  repeat split; vm_compute; reflexivity.
Qed.

Lemma run_update_missing count self dets ts f track_id k :
  BT.run_update count self dets ts = Some f ->
  ids_below count self ->
  active_with self track_id k ->
  track_id ∉ matched_ids self f ->
  (k + 1 <= BT.track_buffer self ->
     active_with (BT.self_after f) track_id (k + 1)) /\
  (BT.track_buffer self < k + 1 -> inactive (BT.self_after f) track_id).
Proof.
  intros Hrun [Hnd Hlt] (trk & Hin & <- & <-) Hun.
  apply list_elem_of_lookup in Hin as [i Hi].
  assert (Hi' : i ∉ BT.matched_tracks f).
  { intros Hm. apply Hun. unfold matched_ids.
    apply list_elem_of_omap. exists i. split; [done|]. by rewrite Hi. }
  destruct (run_update_unmatched _ _ _ _ _ _ _ Hrun Hi Hi') as [Hkeep _].
  split; intros Hb.
  - exists (KBT.predict trk ts).2. split; [by apply Hkeep|]. done.
  - destruct (run_update_summary _ _ _ _ _ Hrun)
      as (tracked2 & Hc & Hl2 & Ht & _ & Hids & _).
    specialize (Hl2 i Hi'). rewrite predicted_lookup, Hi in Hl2. cbn in Hl2.
    apply carried_ids in Hc. rewrite predicted_ids in Hc.
    unfold inactive. rewrite Ht.
    intros (x & Hx & [Hxb Hxin]%list_elem_of_filter)%list_elem_of_fmap.
    apply elem_of_app in Hxin as [Hxin|Hxin].
    + apply list_elem_of_lookup in Hxin as [j Hj].
      assert (j = i) as ->.
      { eapply (NoDup_lookup _ j i (KBT.id x) Hnd).
        - rewrite <- Hc, list_lookup_fmap, Hj. done.
        - rewrite list_lookup_fmap, Hi. cbn. by rewrite Hx. }
      rewrite Hl2 in Hj. injection Hj as <-. cbn in Hxb. lia.
    + assert (Hk : KBT.id x ∈ KBT.id <$> BT.new_tracks f)
        by (by apply list_elem_of_fmap_2).
      rewrite Hids in Hk. apply elem_of_seqZ in Hk.
      rewrite Forall_forall in Hlt.
      apply list_elem_of_lookup_2, Hlt in Hi. lia.
Qed.

Lemma run_update_inactive count self dets ts f track_id :
  BT.run_update count self dets ts = Some f ->
  ids_below count self ->
  track_id < count ->
  inactive self track_id ->
  inactive (BT.self_after f) track_id.
Proof.
  intros Hrun Hids Hlt Hin Hk.
  destruct (run_update_ids _ _ _ _ _ Hrun Hids) as (_ & _ & _ & Hfrom & _).
  destruct (Hfrom _ Hk) as [?|?]; [by apply Hin|lia].
Qed.

Lemma run_missing_inactive track_id frames : forall count self count' self',
  run_missing track_id frames count self = Some (count', self') ->
  ids_below count self -> track_id < count -> inactive self track_id ->
  inactive self' track_id.
Proof.
  induction frames as [|[dets ts] frames IH];
    intros count self count' self' Hrun Hids Hlt Hin.
  - cbn in Hrun. by simplify_eq.
  - cbn [run_missing] in Hrun.
    destruct (BT.run_update count self dets ts) as [f|] eqn:E; [|done].
    cbn [mbind option_bind] in Hrun.
    destruct (bool_decide _); [done|].
    destruct (run_update_ids _ _ _ _ _ E Hids) as (Hids' & Hle & _).
    eapply IH; [exact Hrun|done|lia|].
    by eapply run_update_inactive.
Qed.

Lemma run_missing_spec track_id frames : forall count self count' self' k,
  run_missing track_id frames count self = Some (count', self') ->
  ids_below count self ->
  active_with self track_id k ->
  k <= BT.track_buffer self ->
  (k + Z.of_nat (length frames) <= BT.track_buffer self ->
     active_with self' track_id (k + Z.of_nat (length frames))) /\
  (BT.track_buffer self < k + Z.of_nat (length frames) ->
     inactive self' track_id).
Proof.
  induction frames as [|[dets ts] frames IH];
    intros count self count' self' k Hrun Hids Hact Hk.
  - cbn in Hrun. simplify_eq. cbn [length]. rewrite Z.add_0_r.
    split; [done|lia].
  - cbn [run_missing] in Hrun.
    destruct (BT.run_update count self dets ts) as [f|] eqn:E; [|done].
    cbn [mbind option_bind] in Hrun.
    destruct (bool_decide _) eqn:Em; [done|].
    apply bool_decide_eq_false in Em.
    destruct (run_update_ids _ _ _ _ _ E Hids) as (Hids' & Hle & Hbuf & _).
    destruct (run_update_missing _ _ _ _ _ _ _ E Hids Hact Em)
      as [Hkeep Hevict].
    cbn [length]. rewrite Nat2Z.inj_succ.
    destruct (decide (k + 1 <= BT.track_buffer self)) as [Hin|Hout].
    + destruct (IH _ _ _ _ (k + 1) Hrun Hids' (Hkeep Hin)) as [IH1 IH2];
        [by rewrite Hbuf|].
      rewrite Hbuf in IH1, IH2.
      split; intros Hb.
      * replace (k + Z.succ (Z.of_nat (length frames)))
          with (k + 1 + Z.of_nat (length frames)) by lia.
        apply IH1. lia.
      * apply IH2. lia.
    + split; [lia|]. intros _.
      eapply run_missing_inactive; [exact Hrun|done| |apply Hevict; lia].
      destruct Hact as (trk & Hin & <- & _). destruct Hids as [_ Hlt].
      rewrite Forall_forall in Hlt. specialize (Hlt _ Hin). lia.
Qed.

(** C2: a track that has just been matched or created
    ([time_since_update = 0]) and then receives no detection for [N]
    consecutive [update] calls has [time_since_update = N] and is still
    active as long as [N <= track_buffer], and is not active once
    [N > track_buffer]: it is evicted in frame [track_buffer + 1]. *)
Theorem evicted_after_buffer_plus_one frames count self count' self' trk :
  ids_below count self ->
  0 <= BT.track_buffer self ->
  trk ∈ BT.tracked_stracks self ->
  KBT.time_since_update trk = 0 ->
  run_missing (KBT.id trk) frames count self = Some (count', self') ->
  let N := Z.of_nat (length frames) in
  (N <= BT.track_buffer self ->
     exists trk', trk' ∈ BT.tracked_stracks self' /\
                  KBT.id trk' = KBT.id trk /\
                  KBT.time_since_update trk' = N) /\
  (BT.track_buffer self < N ->
     KBT.id trk ∉ KBT.id <$> BT.tracked_stracks self').
Proof.
  intros Hids Hbuf Hin Hz Hrun N.
  assert (Hact : active_with self (KBT.id trk) 0) by (exists trk; done).
  destruct (run_missing_spec _ _ _ _ _ _ 0 Hrun Hids Hact Hbuf) as [H1 H2].
  rewrite Z.add_0_l in H1, H2. done.
Qed.

End LifecycleFacts.

(** ** Sequences of calls *)

Section SessionFacts.
Import Session Examples.

Lemma two_boxes_ids_below :
  ids_below (state_after two_boxes).1 (state_after two_boxes).2.
Proof.
  split; apply (bool_decide_unpack _); vm_compute; exact I.
Defined.

Lemma two_boxes_first_track :
  first_track (state_after two_boxes).2 ∈
    BT.tracked_stracks (state_after two_boxes).2.
Proof.
  apply (list_elem_of_lookup_2 _ 0%nat). vm_compute. reflexivity.
Defined.

(** [evicted_after_buffer_plus_one] for the first of two new tracks of a
    default tracker (buffer 30): active after 30 frames without detections,
    not active after 31. *)
Lemma evicted_after_buffer_plus_one_witness :
  let count := (state_after two_boxes).1 in
  let self := (state_after two_boxes).2 in
  let trk := first_track self in
  exists r30 r31,
    run_missing (KBT.id trk) (empty_frames 30 (1 # 30)) count self
      = Some r30 /\
    run_missing (KBT.id trk) (empty_frames 31 (1 # 30)) count self
      = Some r31 /\
    (exists trk', trk' ∈ BT.tracked_stracks r30.2 /\
                  KBT.id trk' = KBT.id trk /\
                  KBT.time_since_update trk' = 30) /\
    KBT.id trk ∉ KBT.id <$> BT.tracked_stracks r31.2.
Proof.
  intros count self trk.
  destruct (run_missing (KBT.id trk) (empty_frames 30 (1 # 30)) count self)
    as [[c30 s30]|] eqn:E30; [|vm_compute in E30; discriminate].
  destruct (run_missing (KBT.id trk) (empty_frames 31 (1 # 30)) count self)
    as [[c31 s31]|] eqn:E31; [|vm_compute in E31; discriminate].
  exists (c30, s30), (c31, s31). split; [reflexivity|]. split; [reflexivity|].
  split.
  - apply (evicted_after_buffer_plus_one _ _ _ _ _ _
             two_boxes_ids_below ltac:(vm_compute; discriminate)
             two_boxes_first_track eq_refl E30).
    vm_compute. discriminate.
  - apply (evicted_after_buffer_plus_one _ _ _ _ _ _
             two_boxes_ids_below ltac:(vm_compute; discriminate)
             two_boxes_first_track eq_refl E31).
    vm_compute. reflexivity.
Defined.

Lemma run_calls_update detections timestamp rest count self r :
  run_calls (Update detections timestamp :: rest) count self = Some r ->
  exists f fs,
    BT.run_update count self detections timestamp = Some f /\
    run_calls rest (BT.count_after f) (BT.self_after f) =
      Some (r.1.1, r.1.2, fs) /\
    r.2 = f :: fs.
Proof.
  cbn [run_calls].
  destruct (BT.run_update count self detections timestamp) as [f|]; [|done].
  cbn [mbind option_bind].
  destruct (run_calls rest _ _) as [[[c s] fs]|] eqn:Er; [|done].
  cbn [mbind option_bind]. intros [= <-]. exists f, fs. cbn. done.
Qed.

Lemma created_ids_cons (f : BT.frame) (fs : list BT.frame) :
  created_ids (f :: fs) = (KBT.id <$> BT.new_tracks f) ++ created_ids fs.
Proof. reflexivity. Qed.

(** Without a reset the identities handed out are the consecutive values of
    the class counter. *)
Lemma run_calls_created calls : forall count self count' self' fs,
  Reset ∉ calls ->
  ids_below count self ->
  run_calls calls count self = Some (count', self', fs) ->
  created_ids fs = seqZ count (count' - count) /\
  count <= count' /\
  ids_below count' self'.
Proof.
  induction calls as [|[dets ts|] rest IH];
    intros count self count' self' fs Hnr Hids Hrun.
  - cbn in Hrun. simplify_eq. rewrite Z.sub_diag. cbn. split; [done|].
    split; [lia|done].
  - apply run_calls_update in Hrun as (f & fs' & Hf & Hrest & Hfs).
    cbn in Hrest, Hfs. subst fs.
    destruct (run_update_ids _ _ _ _ _ Hf Hids) as (Hids' & Hle & _).
    destruct (run_update_summary _ _ _ _ _ Hf)
      as (_ & _ & _ & _ & _ & Hnew & Hcount & _).
    apply not_elem_of_cons in Hnr as [_ Hnr].
    apply IH in Hrest as (Hc & Hle' & Hids''); [|done|done].
    split; [|split; [lia|done]].
    rewrite created_ids_cons, Hnew, Hc.
    replace (count' - count)
      with (Z.of_nat (length (BT.new_tracks f)) +
            (count' - BT.count_after f)) by lia.
    rewrite seqZ_app by lia. by rewrite Hcount.
  - exfalso. apply Hnr. left.
Qed.

Lemma run_calls_evicted calls : forall count self count' self' fs,
  Reset ∉ calls ->
  ids_below count self ->
  run_calls calls count self = Some (count', self', fs) ->
  forall (i j : nat) f f' trk new,
    fs !! i = Some f -> fs !! j = Some f' -> (i < j)%nat ->
    trk ∈ BT.lost f -> new ∈ BT.new_tracks f' ->
    KBT.id trk < KBT.id new.
Proof.
  induction calls as [|[dets ts|] rest IH];
    intros count self count' self' fs Hnr Hids Hrun i j f f' trk new
           Hi Hj Hij Htrk Hnew.
  - cbn in Hrun. by simplify_eq.
  - apply run_calls_update in Hrun as (f0 & fs' & Hf & Hrest & Hfs).
    cbn in Hrest, Hfs. subst fs.
    destruct (run_update_ids _ _ _ _ _ Hf Hids)
      as (Hids' & Hle & _ & _ & Hlost & _).
    apply not_elem_of_cons in Hnr as [_ Hnr].
    destruct j as [|j]; [lia|]. cbn in Hj.
    destruct i as [|i]; cbn in Hi.
    + simplify_eq.
      apply run_calls_created in Hrest as (Hc & _ & _); [|done|done].
      rewrite Forall_forall in Hlost. specialize (Hlost _ Htrk).
      assert (Hin : KBT.id new ∈ created_ids fs').
      { unfold created_ids. apply elem_of_concat.
        exists (KBT.id <$> BT.new_tracks f'). split.
        - by apply list_elem_of_fmap_2.
        - fold_fmap.
          apply (list_elem_of_fmap_2
                   (fun f => KBT.id <$> BT.new_tracks f)).
          by eapply list_elem_of_lookup_2. }
      rewrite Hc in Hin. apply elem_of_seqZ in Hin. lia.
    + eapply (IH _ _ _ _ _ Hnr Hids' Hrest i j); eauto. lia.
  - exfalso. apply Hnr. left.
Qed.

(** C6: in a sequence of [update] calls with no reset, starting from a
    state in which every active track owns a distinct identity below the
    class counter, the identities handed out increase strictly, each exceeds
    every identity that existed before, the active tracks keep distinct
    identities, and no track created later receives the identity of a
    track evicted earlier; [reset] puts the counter back to 0. *)
Theorem identities_strictly_increase calls count self count' self' fs :
  Reset ∉ calls ->
  ids_below count self ->
  run_calls calls count self = Some (count', self', fs) ->
  (forall (i j : nat) a b,
     created_ids fs !! i = Some a -> created_ids fs !! j = Some b ->
     (i < j)%nat -> a < b) /\
  (forall trk a,
     trk ∈ BT.tracked_stracks self -> a ∈ created_ids fs ->
     KBT.id trk < a) /\
  NoDup (KBT.id <$> BT.tracked_stracks self') /\
  Forall (fun trk => KBT.id trk < count') (BT.tracked_stracks self') /\
  (forall (i j : nat) f f' trk new,
     fs !! i = Some f -> fs !! j = Some f' -> (i < j)%nat ->
     trk ∈ BT.lost f -> new ∈ BT.new_tracks f' ->
     KBT.id trk < KBT.id new) /\
  count <= count' /\
  (BT.reset self').1 = 0.
Proof.
  intros Hnr Hids Hrun.
  destruct (run_calls_created _ _ _ _ _ _ Hnr Hids Hrun)
    as (Hc & Hle & [Hnd Hlt]).
  split; [|split; [|split; [done|split; [done|split; [|done]]]]].
  - intros i j a b Ha Hb Hij. rewrite Hc in Ha, Hb.
    apply lookup_seqZ in Ha as [-> _], Hb as [-> _]. lia.
  - intros trk a Hin Ha. rewrite Hc in Ha. apply elem_of_seqZ in Ha.
    destruct Hids as [_ Hb]. rewrite Forall_forall in Hb.
    specialize (Hb _ Hin). lia.
  - by eapply run_calls_evicted.
Qed.

Lemma churn_no_reset : Reset ∉ churn.
Proof.
  unfold churn.
  repeat (apply not_elem_of_cons; split; [discriminate|]).
  apply not_elem_of_nil.
Defined.

Lemma short_buffer_ids_below : ids_below 0 short_buffer.
Proof. split; constructor. Defined.

(** [identities_strictly_increase] on [churn]: the track evicted in the
    third frame had identity 0 and the track created in the fourth has
    identity 1. *)
Lemma identities_strictly_increase_witness :
  exists count' self' fs,
    run_calls churn 0 short_buffer = Some (count', self', fs) /\
    (forall (i j : nat) a b,
       created_ids fs !! i = Some a -> created_ids fs !! j = Some b ->
       (i < j)%nat -> a < b) /\
    NoDup (KBT.id <$> BT.tracked_stracks self') /\
    (forall (i j : nat) f f' trk new,
       fs !! i = Some f -> fs !! j = Some f' -> (i < j)%nat ->
       trk ∈ BT.lost f -> new ∈ BT.new_tracks f' ->
       KBT.id trk < KBT.id new).
Proof.
  destruct (run_calls churn 0 short_buffer) as [[[count' self'] fs]|] eqn:E;
    [|vm_compute in E; discriminate].
  exists count', self', fs. split; [reflexivity|].
  destruct (identities_strictly_increase _ _ _ _ _ _
              churn_no_reset short_buffer_ids_below E)
    as (H1 & _ & H3 & _ & H5 & _).
  split; [exact H1|]. split; [exact H3|exact H5].
Defined.

Lemma churn_ids :
  exists r,
    run_calls churn 0 short_buffer = Some r /\
    created_ids r.2 = [0; 1] /\
    (fun f => KBT.id <$> BT.lost f) <$> r.2 = [[]; []; [0]; []] /\
    KBT.id <$> BT.tracked_stracks r.1.2 = [1].
Proof.
  destruct (run_calls churn 0 short_buffer) as [r|] eqn:E;
    [|vm_compute in E; discriminate].
  exists r. vm_compute in E. injection E as <-.
  repeat split; vm_compute; reflexivity.
Qed.

(** *** The lost list *)

Lemma filter_none {A : Type} (P : A -> Prop) `{forall a, Decision (P a)}
    (l : list A) :
  Forall (fun a => ~ P a) l -> filter P l = [].
Proof.
  induction 1 as [|a l Ha _ IH]; [done|].
  by rewrite filter_cons_False.
Qed.

Lemma run_update_lost count self dets ts f :
  BT.run_update count self dets ts = Some f ->
  BT.lost_stracks self = [] ->
  BT.lost_stracks (BT.self_after f) = [] /\
  Forall (fun trk => BT.track_buffer self < KBT.time_since_update trk /\
                     trk ∉ BT.tracked_stracks (BT.self_after f))
         (BT.lost f).
Proof.
  intros Hrun Hempty.
  destruct (run_update_inv _ _ _ _ _ Hrun)
    as (? & ? & tracked2 & ? & _ & _ & _ & _ & _ & Ht & Hl & Hls & _).
  assert (Hev : Forall (fun trk =>
                          BT.track_buffer self < KBT.time_since_update trk)
                       (BT.lost f)).
  { rewrite Hl. apply Forall_forall.
    by intros trk [? _]%elem_of_reverse%list_elem_of_filter. }
  split.
  - rewrite Hls, Hempty. cbn [app]. apply filter_none.
    eapply Forall_impl; [exact Hev|]. cbn. intros; lia.
  - apply Forall_forall. intros trk Hin.
    rewrite Forall_forall in Hev. specialize (Hev _ Hin). split; [done|].
    rewrite Ht. intros [? _]%list_elem_of_filter. lia.
Qed.

(** C10: after every call that returns, starting from a new tracker, the
    lost list is empty and the statistics report no lost track; the tracks
    taken out of the active list in a frame are not active after it. *)
Theorem lost_list_always_empty calls track_thresh track_buffer match_thresh
    frame_rate count count' self' fs :
  run_calls calls count
            (BT.init track_thresh track_buffer match_thresh frame_rate) =
    Some (count', self', fs) ->
  BT.lost_stracks self' = [] /\
  BT.stats_lost_tracks (BT.get_performance_stats self') = 0 /\
  Forall (fun f =>
            BT.lost_stracks (BT.self_after f) = [] /\
            BT.stats_lost_tracks
              (BT.get_performance_stats (BT.self_after f)) = 0 /\
            Forall (fun trk => trk ∉ BT.tracked_stracks (BT.self_after f))
                   (BT.lost f))
         fs.
Proof.
  assert (Hgen : forall calls count self count' self' fs,
    BT.lost_stracks self = [] ->
    run_calls calls count self = Some (count', self', fs) ->
    BT.lost_stracks self' = [] /\
    Forall (fun f =>
              BT.lost_stracks (BT.self_after f) = [] /\
              BT.stats_lost_tracks
                (BT.get_performance_stats (BT.self_after f)) = 0 /\
              Forall (fun trk => trk ∉ BT.tracked_stracks (BT.self_after f))
                     (BT.lost f))
           fs).
  { clear. induction calls as [|[dets ts|] rest IH];
      intros count self count' self' fs Hempty Hrun.
    - cbn in Hrun. simplify_eq. split; [done|constructor].
    - apply run_calls_update in Hrun as (f & fs' & Hf & Hrest & Hfs).
      cbn in Hrest, Hfs. subst fs.
      destruct (run_update_lost _ _ _ _ _ Hf Hempty) as [Hl Hev].
      destruct (IH _ _ _ _ _ Hl Hrest) as [IH1 IH2].
      split; [done|]. constructor; [|done].
      split; [done|]. split.
      + unfold BT.get_performance_stats. cbn. by rewrite Hl.
      + eapply Forall_impl; [exact Hev|]. by intros trk [_ ?].
    - cbn [run_calls] in Hrun. by apply IH in Hrun. }
  intros Hrun.
  destruct (Hgen calls count (BT.init track_thresh track_buffer match_thresh
                                     frame_rate) _ _ _ eq_refl Hrun)
    as [H1 H2].
  split; [done|]. split; [|done].
  unfold BT.get_performance_stats. cbn. by rewrite H1.
Qed.

(** [lost_list_always_empty] on calls that evict a track and reset. *)
Lemma lost_list_always_empty_witness :
  exists count' self' fs,
    run_calls churn_reset 0 (BT.init (6 # 10) 1 (8 # 10) 30) =
      Some (count', self', fs) /\
    BT.lost_stracks self' = [] /\
    BT.stats_lost_tracks (BT.get_performance_stats self') = 0.
Proof.
  destruct (run_calls churn_reset 0 (BT.init (6 # 10) 1 (8 # 10) 30))
    as [[[count' self'] fs]|] eqn:E; [|vm_compute in E; discriminate].
  exists count', self', fs. split; [reflexivity|].
  destruct (lost_list_always_empty _ _ _ _ _ _ _ _ _ E) as (H1 & H2 & _).
  split; [exact H1|exact H2].
Defined.

End SessionFacts.

Section MatchingExamples.
Import Session Examples.

(** [update_matches_at_most_once] on a frame in which both rounds match:
    the strong detection at position 1 goes to track 0 in the first round
    and the weak detection at position 0 goes to track 1 in the second. *)
Lemma update_matches_at_most_once_witness :
  exists f,
    BT.run_update (state_after two_boxes).1 (state_after two_boxes).2
                  mixed_frame (1 # 30) = Some f /\
    NoDup (matched_detections (state_after two_boxes).2 mixed_frame f) /\
    NoDup (BT.matched_tracks f).
Proof.
  destruct (BT.run_update (state_after two_boxes).1 (state_after two_boxes).2
                          mixed_frame (1 # 30)) as [f|] eqn:E;
    [|vm_compute in E; discriminate].
  exists f. split; [reflexivity|].
  destruct (update_matches_at_most_once _ _ _ _ _ E) as (H1 & H2 & _).
  split; [exact H1|exact H2].
Defined.

Lemma mixed_frame_matches :
  exists f,
    BT.run_update (state_after two_boxes).1 (state_after two_boxes).2
                  mixed_frame (1 # 30) = Some f /\
    BT.matches f = [(0, 0)%nat] /\ BT.matches_low f = [(0, 0)%nat] /\
    matched_detections (state_after two_boxes).2 mixed_frame f
      = [1; 0]%nat /\
    BT.matched_tracks f = [0; 1]%nat.
Proof.
  destruct (BT.run_update (state_after two_boxes).1 (state_after two_boxes).2
                          mixed_frame (1 # 30)) as [f|] eqn:E;
    [|vm_compute in E; discriminate].
  exists f. vm_compute in E. injection E as <-.
  repeat split; vm_compute; reflexivity.
Qed.

End MatchingExamples.

(** ** Path validation *)

Section PathFacts.
Import VideoProcessor Examples.
#[local] Open Scope string_scope.

(** [validate_path] raising is the only way [_load_video] returns without
    any file access. *)
Lemma load_video_rejects_before_access fs allowed_dirs max_duration path e :
  validate_path fs allowed_dirs path = Some e ->
  _load_video fs allowed_dirs max_duration path = ([], inl e).
Proof. unfold _load_video. by intros ->. Qed.

(** C7, the scenario: with working directory [/app] and allow-list
    [/app/uploads], the path [../../etc/passwd] is rejected and no file is
    touched. *)
Lemma load_video_rejects_traversal :
  PathLib.resolve "/app" "../../etc/passwd" = "/etc/passwd" /\
  _load_video permissive_fs ["/app/uploads"] 300 "../../etc/passwd" =
    ([], inl PathNotAllowed).
Proof. split; reflexivity. Qed.

(** C7 fails on a sibling directory: [/app/uploads_evil/clip.mp4] is
    already canonical and is not below [/app/uploads], yet it passes both
    path checks, and the file is looked up and opened. *)
Theorem load_video_accepts_sibling_prefix :
  PathLib.resolve "/app" "/app/uploads_evil/clip.mp4" =
    "/app/uploads_evil/clip.mp4" /\
  PathLib.under_dir "/app/uploads" "/app/uploads_evil/clip.mp4" = false /\
  validate_path permissive_fs ["/app/uploads"] "/app/uploads_evil/clip.mp4"
    = None /\
  _load_video permissive_fs ["/app/uploads"] 300
              "/app/uploads_evil/clip.mp4" =
    ([Exists "/app/uploads_evil/clip.mp4";
      Open "/app/uploads_evil/clip.mp4"],
     inr (30%Q, 90, (inject_Z 90 / 30)%Q)).
Proof. repeat split; reflexivity. Qed.

End PathFacts.

(** ** Job progress *)

Section ProgressFacts.
Import VideoProcessor Examples.
#[local] Open Scope Q_scope.













End ProgressFacts.

(** * Further properties *)

(** ** Boxes and bookkeeping of the motion state *)

Section MotionStateFacts.
Import Tracks Examples.
#[local] Open Scope Q_scope.



Lemma kbt_update_confidence (self self' : KBT.t) (bbox : BoundingBox.t)
    (ts : Q) :
  KBT.update self bbox ts = Some self' ->
  KBT.confidence self' =
    Py.max (KBT.confidence self * (9 # 10)) (BoundingBox.confidence bbox) /\
  KBT.last_timestamp self' = ts.
Proof.
  unfold KBT.update. destruct (LinAlg.inv _); [|discriminate].
  intros H. apply (inj Some) in H. rewrite <- H.
  cbn [KBT.confidence KBT.last_timestamp]. auto.
Qed.

(** X2: a correction that succeeds keeps the identity and the age, sets
    [time_since_update] to 0 and the last timestamp to the frame's, adds one
    to [hits] and [hit_streak], and leaves a confidence that is the larger of
    the detection's and nine tenths of the old one, hence within [0,1] when
    both were. *)
Theorem kalman_update_bookkeeping (self self' : KBT.t) (bbox : BoundingBox.t)
    (timestamp : Q) :
  KBT.update self bbox timestamp = Some self' ->
  KBT.id self' = KBT.id self /\
  KBT.age self' = KBT.age self /\
  KBT.time_since_update self' = 0%Z /\
  KBT.last_timestamp self' = timestamp /\
  KBT.hits self' = (KBT.hits self + 1)%Z /\
  KBT.hit_streak self' = (KBT.hit_streak self + 1)%Z /\
  BoundingBox.confidence bbox <= KBT.confidence self' /\
  KBT.confidence self * (9 # 10) <= KBT.confidence self' /\
  (KBT.confidence self' = BoundingBox.confidence bbox \/
   KBT.confidence self' = KBT.confidence self * (9 # 10)) /\
  (0 <= KBT.confidence self <= 1 -> 0 <= BoundingBox.confidence bbox <= 1 ->
   0 <= KBT.confidence self' <= 1).
Proof.
  intros H.
  pose proof (kbt_update_confidence _ _ _ _ H) as Hc.
  destruct Hc as [Hc Hts].
  apply kbt_update_fields in H as (? & ? & ? & ? & ?).
  pose proof (py_max_bounds (KBT.confidence self * (9 # 10))
                            (BoundingBox.confidence bbox)) as [Hb1 Hb2].
  pose proof (py_max_cases (KBT.confidence self * (9 # 10))
                           (BoundingBox.confidence bbox)) as Hcases.
  rewrite <- Hc in Hb1, Hb2, Hcases.
  repeat split; try done.
  - destruct Hcases; [by right|by left].
  - destruct Hcases as [->| ->]; lra.
  - destruct Hcases as [->| ->]; lra.
Qed.

(** [kalman_update_bookkeeping] at the correction that makes
    [moving_track]. *)
Lemma kalman_update_bookkeeping_witness :
  exists trk,
    moving_track = Some trk /\
    KBT.time_since_update trk = 0%Z /\ KBT.hit_streak trk = 1%Z /\
    BoundingBox.confidence moved_box <= KBT.confidence trk.
Proof.
  destruct moving_track as [trk|] eqn:E; [|vm_compute in E; discriminate].
  exists trk. split; [reflexivity|].
  destruct (kalman_update_bookkeeping _ _ _ _ E)
    as (_ & _ & H3 & _ & _ & H6 & H7 & _).
  split; [exact H3|]. split; [exact H6|exact H7].
Defined.

End MotionStateFacts.

(** ** Frames without detections and trackers without tracks *)

Section EdgeFrames.
Import Session Tracks Examples.

Lemma filter_all {A : Type} (P : A -> Prop) `{forall a, Decision (P a)}
    (l : list A) :
  Forall P l -> filter P l = l.
Proof.
  induction 1 as [|a l Ha _ IH]; [done|].
  rewrite filter_cons_True by done. by f_equal.
Qed.


Lemma associate_no_trackers (dets : list BoundingBox.t) thr :
  BT._associate dets [] thr = ([], seq 0 (length dets), []).
Proof. reflexivity. Qed.

Lemma mapM_lookup_seq {A : Type} (l : list A) :
  mapM (fun i => l !! i) (seq 0 (length l)) = Some l.
Proof.
  apply mapM_Some. apply Forall2_same_length_lookup.
  split; [by rewrite length_seq|].
  intros i j a Hj Ha. apply lookup_seq in Hj as [-> _]. done.
Qed.


Lemma create_tracks_all thr ts (dets : list BoundingBox.t) : forall count,
  Forall (fun d => Qle_bool thr (BoundingBox.confidence d) = true) dets ->
  Forall2 (fresh_from ts) dets (BT.create_tracks thr dets ts count).1.
Proof.
  induction dets as [|det dets IH]; intros count Hall; [constructor|].
  apply Forall_cons in Hall as [Hd Hall].
  cbn [BT.create_tracks]. rewrite Hd. unfold KBT.init at 1.
  specialize (IH (count + 1) Hall).
  destruct (BT.create_tracks thr dets ts (count + 1)) as [others c2].
  cbn [fst] in *. constructor; [reflexivity|done].
Qed.

Lemma high_conf_dets_pass self (dets : list BoundingBox.t) :
  Forall (fun d => Qle_bool (BT.track_thresh self)
                            (BoundingBox.confidence d) = true)
         (high_conf_dets self dets).
Proof.
  apply Forall_forall. intros d [Hd _]%list_elem_of_filter.
  by apply Is_true_true.
Qed.

(** X4: on a tracker without active tracks [update] never raises and
    returns an empty list; it creates one track for every detection at or
    above [track_thresh], in order, each as [__init__] makes it for that
    detection, with consecutive identities from the class counter. *)
Theorem update_on_empty_tracker count self detections timestamp :
  BT.tracked_stracks self = [] ->
  exists f,
    BT.run_update count self detections timestamp = Some f /\
    BT.tracking_data f = [] /\
    Forall2 (fresh_from timestamp) (high_conf_dets self detections)
            (BT.new_tracks f) /\
    KBT.id <$> BT.new_tracks f =
      seqZ count (Z.of_nat (length (high_conf_dets self detections))) /\
    BT.count_after f =
      count + Z.of_nat (length (high_conf_dets self detections)) /\
    BT.tracked_stracks (BT.self_after f) =
      (if decide (0 <= BT.track_buffer self) then BT.new_tracks f else []).
Proof.
  intros Hempty. unfold BT.run_update. rewrite Hempty. fold_fmap.
  fold (high_conf_dets self detections) (low_conf_dets self detections).
  cbn [fmap list_fmap]. rewrite associate_no_trackers.
  cbn [BT.update_matched mbind option_bind length Nat.ltb Nat.leb andb].
  rewrite andb_false_r, mapM_lookup_seq. cbn [mbind option_bind app].
  pose proof (create_tracks_all (BT.track_thresh self) timestamp
                (high_conf_dets self detections) count
                (high_conf_dets_pass self detections)) as Hfresh.
  destruct (BT.create_tracks (BT.track_thresh self)
              (high_conf_dets self detections) timestamp count)
    as [new count1] eqn:EC.
  cbn [fst] in Hfresh.
  apply create_tracks_spec in EC as (Hids & Hcount & Hnew).
  apply Forall2_length in Hfresh as Hlen.
  cbn [app]. rewrite evict_loop_spec. cbn [mbind option_bind].
  eexists. split; [reflexivity|].
  cbn [BT.tracking_data BT.new_tracks BT.count_after BT.self_after
       BT.tracked_stracks BT.track_buffer].
  assert (Hhs : filter (fun trk => 3 <= KBT.hit_streak trk)
                  (filter (fun trk => KBT.time_since_update trk <=
                                      BT.track_buffer self) new) = []).
  { apply filter_none, Forall_forall.
    intros trk [_ Hin]%list_elem_of_filter.
    rewrite Forall_forall in Hnew. destruct (Hnew _ Hin) as [_ ->]. lia. }
  split; [by rewrite Hhs|]. split; [done|].
  split; [by rewrite Hids, Hlen|]. split; [lia|].
  destruct (decide (0 <= BT.track_buffer self)) as [Hb|Hb].
  - apply filter_all, Forall_forall. intros trk Hin.
    rewrite Forall_forall in Hnew. destruct (Hnew _ Hin) as [-> _]. lia.
  - apply filter_none, Forall_forall. intros trk Hin.
    rewrite Forall_forall in Hnew. destruct (Hnew _ Hin) as [-> _]. lia.
Qed.

(** [update_on_empty_tracker] on a default tracker and [mixed_frame]: two
    of its three detections reach the threshold. *)
Lemma update_on_empty_tracker_witness :
  exists f,
    BT.run_update 0 BT.default mixed_frame 0 = Some f /\
    BT.tracking_data f = [] /\
    KBT.id <$> BT.new_tracks f =
      seqZ 0 (Z.of_nat (length (high_conf_dets BT.default mixed_frame))).
Proof.
  destruct (update_on_empty_tracker 0 BT.default mixed_frame 0 eq_refl)
    as (f & H1 & H2 & _ & H4 & _).
  exists f. split; [exact H1|]. split; [exact H2|exact H4].
Defined.

End EdgeFrames.

(** ** New tracks *)

Section NewTrackFacts.
Import Session Tracks Examples.

Lemma length_filter_not_in (l : list nat) (n : nat) :
  NoDup l -> Forall (fun i => (i < n)%nat) l ->
  length (filter (fun i => i ∉ l) (seq 0 n)) = (n - length l)%nat.
Proof.
  intros Hnd Hlt.
  assert (Hperm : filter (fun i => i ∈ l) (seq 0 n) ≡ₚ l).
  { apply NoDup_Permutation; [apply NoDup_filter, NoDup_seq|done|].
    intros i. rewrite list_elem_of_filter, elem_of_seq.
    rewrite Forall_forall in Hlt. split; [tauto|].
    intros Hi. specialize (Hlt _ Hi). split; [done|lia]. }
  pose proof (filter_app_complement (fun i => i ∈ l) (seq 0 n)) as Hc.
  apply Permutation_length in Hc, Hperm.
  rewrite length_app, length_seq in Hc. lia.
Qed.

Lemma mapM_lookup_elem {A : Type} (l k : list A) (js : list nat) :
  mapM (fun j => l !! j) js = Some k ->
  length k = length js /\ Forall (fun a => a ∈ l) k.
Proof.
  intros H%mapM_Some. split; [symmetry; by eapply Forall2_length|].
  induction H as [|j a js k Hj _ IH]; constructor; [|done].
  by eapply list_elem_of_lookup_2.
Qed.

(** X5: the tracks created in a frame are one for each detection at or
    above [track_thresh] that the first round left unmatched, each as
    [__init__] makes it for a detection of the frame whose confidence
    reaches the threshold; detections below the threshold never create a
    track. *)
Theorem new_tracks_from_unmatched_high count self detections timestamp f :
  BT.run_update count self detections timestamp = Some f ->
  length (BT.new_tracks f) =
    (length (high_conf_dets self detections) - length (BT.matches f))%nat /\
  Forall (fun trk =>
            exists det, det ∈ detections /\
              (BT.track_thresh self <= BoundingBox.confidence det)%Q /\
              fresh_from timestamp det trk)
         (BT.new_tracks f).
Proof.
  intros (uds & tracked1 & tracked2 & boxes & Ha & _ & _ & Hb & Hc & _)
         %run_update_inv.
  apply associate_spec in Ha as (Hd & _ & Hr & Huds & _).
  apply mapM_lookup_elem in Hb as [Hlen Hin].
  assert (Hpass : Forall (fun d => Qle_bool (BT.track_thresh self)
                                     (BoundingBox.confidence d) = true) boxes).
  { eapply Forall_impl; [exact Hin|]. cbn. intros d Hd'.
    pose proof (high_conf_dets_pass self detections) as Hp.
    rewrite Forall_forall in Hp. by apply Hp. }
  pose proof (create_tracks_all (BT.track_thresh self) timestamp boxes count
                Hpass) as Hfresh.
  rewrite Hc in Hfresh. cbn [fst] in Hfresh.
  split.
  - rewrite <- (Forall2_length _ _ _ Hfresh), Hlen, Huds.
    rewrite length_filter_not_in, length_fmap; [done|done|].
    apply Forall_fmap. eapply Forall_impl; [exact Hr|]. by intros p [? _].
  - apply Forall_forall. intros trk Htrk.
    apply list_elem_of_lookup in Htrk as [i Hi].
    destruct (Forall2_lookup_r _ _ _ _ _ Hfresh Hi) as (det & Hdet & Hf).
    exists det. apply list_elem_of_lookup_2 in Hdet.
    rewrite Forall_forall in Hin, Hpass.
    specialize (Hin _ Hdet). specialize (Hpass _ Hdet).
    apply list_elem_of_filter in Hin as [_ Hin].
    split; [done|]. split; [by apply Qle_bool_iff|done].
Qed.

(** [new_tracks_from_unmatched_high] on the frame of [mixed_frame] after
    [two_boxes]: one of the two strong detections is matched, the other
    founds a track. *)
Lemma new_tracks_from_unmatched_high_witness :
  exists f,
    BT.run_update (state_after two_boxes).1 (state_after two_boxes).2
                  mixed_frame (1 # 30) = Some f /\
    length (BT.new_tracks f) =
      (length (high_conf_dets (state_after two_boxes).2 mixed_frame) -
       length (BT.matches f))%nat.
Proof.
  destruct (BT.run_update (state_after two_boxes).1 (state_after two_boxes).2
                          mixed_frame (1 # 30)) as [f|] eqn:E;
    [|vm_compute in E; discriminate].
  exists f. split; [reflexivity|].
  exact (proj1 (new_tracks_from_unmatched_high _ _ _ _ _ E)).
Defined.

End NewTrackFacts.

(** ** What one frame does to each track *)

Section PerTrackFacts.
Import Session Tracks Counters Examples.
Arguments KBT.update : simpl never.

Lemma update_matched_exact (pairs : list (nat * nat)) dets ts :
  forall tracked tracked' : list KBT.t,
  BT.update_matched pairs dets ts tracked = Some tracked' ->
  NoDup pairs.*2 ->
  forall d i, (d, i) ∈ pairs ->
    exists trk det trk',
      tracked !! i = Some trk /\ dets !! d = Some det /\
      KBT.update trk det ts = Some trk' /\ tracked' !! i = Some trk'.
Proof.
  induction pairs as [|[d0 i0] rest IH]; intros tracked tracked' H Hnd d i Hin.
  - by apply elem_of_nil in Hin.
  - cbn [BT.update_matched] in H.
    destruct (tracked !! i0) as [trk|] eqn:Ei; [|discriminate].
    destruct (dets !! d0) as [det|] eqn:Ed; [|discriminate].
    destruct (KBT.update trk det ts) as [trk'|] eqn:Eu; [|discriminate].
    cbn [fmap list_fmap snd] in Hnd. apply NoDup_cons in Hnd as [Hi0 Hnd].
    apply elem_of_cons in Hin as [Heq|Hin].
    + simplify_eq. exists trk, det, trk'. repeat split; try done.
      destruct (update_matched_spec _ _ _ _ _ H) as [_ Hl].
      rewrite Hl by done. apply list_lookup_insert_eq.
      by eapply lookup_lt_Some.
    + assert (i <> i0).
      { intros ->. apply Hi0.
        by apply (list_elem_of_fmap_2 snd _ (d, i0)). }
      destruct (IH _ _ H Hnd d i Hin) as (trk1 & det1 & trk1' & H1 & H2 & H3 & H4).
      rewrite list_lookup_insert_ne in H1 by done.
      exists trk1, det1, trk1'. done.
Qed.

Lemma second_round_pairs_elem (uts : list nat) (ml pairs : list (nat * nat)) :
  mapM (fun m : nat * nat => track_idx ← uts !! m.2; Some (m.1, track_idx))
       ml = Some pairs ->
  forall d i, (d, i) ∈ pairs <-> exists t, (d, t) ∈ ml /\ uts !! t = Some i.
Proof.
  revert pairs. induction ml as [|[d0 t0] ml IH]; intros pairs H d i.
  - rewrite mapM_Some in H. inversion H; subst. split.
    + by intros ?%elem_of_nil.
    + by intros (? & ?%elem_of_nil & _).
  - rewrite mapM_Some in H. inversion H as [|? p ? ps Hp Hps]; subst.
    apply mapM_Some in Hps. cbn in Hp.
    destruct (uts !! t0) as [i0|] eqn:E0; [|discriminate]. cbn in Hp.
    simplify_eq. rewrite elem_of_cons, (IH _ Hps). split.
    + intros [[= -> ->]|(t & Hin & Ht)].
      * exists t0. split; [left|done].
      * exists t. split; [by right|done].
    + intros (t & [[= -> ->]|Hin]%elem_of_cons & Ht).
      * left. by simplify_eq.
      * right. eauto.
Qed.

(** What one call of [update] does to each track that was active. *)
Lemma run_update_per_track count self detections timestamp f :
  BT.run_update count self detections timestamp = Some f ->
  exists tracked2 : list KBT.t,
    length tracked2 = length (BT.tracked_stracks self) /\
    BT.tracked_stracks (BT.self_after f) =
      filter (fun trk => KBT.time_since_update trk <= BT.track_buffer self)
             (tracked2 ++ BT.new_tracks f) /\
    forall (i : nat) trk,
      BT.tracked_stracks self !! i = Some trk ->
      ((i ∉ BT.matched_tracks f) /\
       tracked2 !! i = Some (KBT.predict trk timestamp).2) \/
      (i ∈ BT.matched_tracks f /\
       exists det trk',
         det ∈ detections /\
         KBT.update (KBT.predict trk timestamp).2 det timestamp = Some trk' /\
         tracked2 !! i = Some trk').
Proof.
  intros Hrun.
  destruct (matched_tracks_facts _ _ _ _ _ Hrun) as (Hnd & _ & _).
  destruct (run_update_inv _ _ _ _ _ Hrun)
    as (uds & tracked1 & tracked2 & boxes & Ha & Hu & Hs & _ & _ & Ht & _).
  exists tracked2.
  apply associate_spec in Ha as (_ & Hnd1 & _).
  pose proof (update_matched_spec _ _ _ _ _ Hu) as [Hc1 Hl1].
  pose proof (second_round_facts _ _ _ _ _ _ Hs) as (_ & _ & _ & Hc2 & Hl2).
  unfold BT.matched_tracks in *. fold_fmap.
  apply NoDup_app in Hnd as (_ & Hdisj & Hnd2).
  split; [|split; [done|]].
  { apply Forall2_length in Hc1, Hc2. unfold predicted in Hc1.
    rewrite length_fmap in Hc1. congruence. }
  intros i trk Hi.
  assert (Hp : predicted self timestamp !! i =
               Some (KBT.predict trk timestamp).2)
    by (by rewrite predicted_lookup, Hi).
  destruct (decide (i ∈ (BT.matches f).*2)) as [Hin1|Hout1].
  - right. split; [apply elem_of_app; by left|].
    apply list_elem_of_fmap in Hin1 as ([d i'] & Heq & Hin1). cbn in Heq.
    subst i'.
    destruct (update_matched_exact _ _ _ _ _ Hu Hnd1 _ _ Hin1)
      as (p & det & trk' & H1 & H2 & H3 & H4).
    rewrite Hp in H1. apply (inj Some) in H1. subst p.
    exists det, trk'. split; [|split; [done|]].
    + apply list_elem_of_lookup_2 in H2.
      by apply list_elem_of_filter in H2 as [_ ?].
    + rewrite Hl2; [done|]. apply Hdisj.
      by apply (list_elem_of_fmap_2 snd _ (d, i)).
  - specialize (Hl1 i Hout1). rewrite Hp in Hl1.
    destruct (decide (i ∈ omap (fun m : nat * nat =>
                                  BT.unmatched_trks f !! m.2)
                               (BT.matches_low f))) as [Hin2|Hout2].
    + right. split; [apply elem_of_app; by right|].
      destruct Hs as [[He _]|(ult & pairs & uds' & uts & _ & _ & Hpairs & Hu2)].
      { rewrite He in Hin2. by apply elem_of_nil in Hin2. }
      pose proof (second_round_pairs _ _ _ Hpairs) as Hsnd.
      rewrite <- Hsnd in Hin2, Hnd2.
      apply list_elem_of_fmap in Hin2 as ([d i'] & Heq & Hin2). cbn in Heq.
      subst i'.
      destruct (update_matched_exact _ _ _ _ _ Hu2 Hnd2 _ _ Hin2)
        as (p & det & trk' & H1 & H2 & H3 & H4).
      rewrite Hl1 in H1. apply (inj Some) in H1. subst p.
      exists det, trk'. split; [|done].
      apply list_elem_of_lookup_2 in H2.
      by apply list_elem_of_filter in H2 as [_ ?].
    + left. split.
      * intros [?|?]%elem_of_app; done.
      * by rewrite Hl2, Hl1.
Qed.

(** X6: in one call of [update] every track that was active when the call
    started is predicted once, and then either left at that (when it is
    not matched: one frame older, one more frame without update, same hit
    streak) or corrected exactly once, with a detection of the frame (when it
    is matched: one frame older, [time_since_update] 0, hit streak one
    longer); it keeps its identity and its position in the list.  The active
    list afterwards is what remains of these tracks and the new ones once
    those beyond the buffer are taken out. *)
Theorem tracks_corrected_at_most_once count self detections timestamp f :
  BT.run_update count self detections timestamp = Some f ->
  exists tracked2 : list KBT.t,
    length tracked2 = length (BT.tracked_stracks self) /\
    BT.tracked_stracks (BT.self_after f) =
      filter (fun trk => KBT.time_since_update trk <= BT.track_buffer self)
             (tracked2 ++ BT.new_tracks f) /\
    forall (i : nat) trk,
      BT.tracked_stracks self !! i = Some trk ->
      exists trk',
        tracked2 !! i = Some trk' /\
        KBT.id trk' = KBT.id trk /\
        KBT.age trk' = KBT.age trk + 1 /\
        (((i ∉ BT.matched_tracks f) /\
          trk' = (KBT.predict trk timestamp).2 /\
          KBT.time_since_update trk' = KBT.time_since_update trk + 1 /\
          KBT.hit_streak trk' = KBT.hit_streak trk) \/
         (i ∈ BT.matched_tracks f /\
          KBT.time_since_update trk' = 0 /\
          KBT.hit_streak trk' = KBT.hit_streak trk + 1 /\
          exists det,
            det ∈ detections /\
            KBT.update (KBT.predict trk timestamp).2 det timestamp =
              Some trk')).
Proof.
  intros Hrun.
  destruct (run_update_per_track _ _ _ _ _ Hrun)
    as (tracked2 & Hlen & Ht & Hcases).
  exists tracked2. split; [done|]. split; [done|].
  intros i trk Hi.
  destruct (Hcases i trk Hi) as [[Hun Hsame]|(Hin & det & trk' & Hdet & Hup & Hnew)].
  - exists (KBT.predict trk timestamp).2. split; [done|].
    rewrite predict_self. cbn. split; [done|]. split; [done|].
    left. done.
  - exists trk'. split; [done|].
    pose proof (kbt_update_fields _ _ _ _ Hup) as (Hid & Htsu & Hhs & _ & Hage).
    rewrite predict_self in Hid, Hhs, Hage. cbn in Hid, Hhs, Hage.
    split; [done|]. split; [done|]. right.
    split; [done|]. split; [done|]. split; [done|]. eauto.
Qed.

Lemma tracks_corrected_at_most_once_witness :
  let count := (state_after two_boxes).1 in
  let self := (state_after two_boxes).2 in
  exists f, BT.run_update count self [left_box] (1 # 30) = Some f /\
  exists tracked2 : list KBT.t,
    length tracked2 = length (BT.tracked_stracks self) /\
    BT.tracked_stracks (BT.self_after f) =
      filter (fun trk => KBT.time_since_update trk <= BT.track_buffer self)
             (tracked2 ++ BT.new_tracks f).
Proof.
  intros count self.
  destruct (BT.run_update count self [left_box] (1 # 30)) as [f|] eqn:E.
  - exists f. split; [reflexivity|].
    destruct (tracks_corrected_at_most_once _ _ _ _ _ E)
      as (tracked2 & Hlen & Ht & _).
    exists tracked2. split; [exact Hlen|exact Ht].
  - exfalso. vm_compute in E. discriminate.
Defined.

(** One frame keeps the counters of every active track consistent. *)
Lemma run_update_consistent count self dets ts f :
  BT.run_update count self dets ts = Some f ->
  Forall consistent (BT.tracked_stracks self) ->
  Forall consistent (BT.tracked_stracks (BT.self_after f)).
Proof.
  intros Hrun Hall.
  destruct (run_update_per_track _ _ _ _ _ Hrun)
    as (tracked2 & Hlen & Ht & Hcases).
  rewrite Ht. apply Forall_forall.
  intros trk [_ Hin]%list_elem_of_filter.
  apply elem_of_app in Hin as [Hin|Hin].
  - apply list_elem_of_lookup_1 in Hin as [i Hi].
    assert (Hlt : (i < length (BT.tracked_stracks self))%nat)
      by (rewrite <- Hlen; by eapply lookup_lt_Some).
    apply lookup_lt_is_Some_2 in Hlt as [old Hold].
    rewrite Forall_forall in Hall.
    assert (Hc : consistent old)
      by (apply Hall; by eapply list_elem_of_lookup_2).
    destruct Hc as (H1 & H2 & H3 & H4).
    destruct (Hcases i old Hold) as [[_ Hsame]|(_ & det & trk' & _ & Hup & Hnew)].
    + rewrite Hi in Hsame. apply (inj Some) in Hsame. subst trk.
      rewrite predict_self. unfold consistent. cbn. lia.
    + rewrite Hi in Hnew. apply (inj Some) in Hnew. subst trk'.
      apply kbt_update_fields in Hup as (_ & Htsu & Hhs & Hh & Hage).
      rewrite predict_self in Hhs, Hh, Hage. cbn in Hhs, Hh, Hage.
      unfold consistent. lia.
  - destruct (run_update_inv _ _ _ _ _ Hrun)
      as (uds & tracked1 & tracked2' & boxes & _ & _ & _ & _ & Hc & _).
    clear -Hc Hin. revert count Hc Hin.
    generalize (BT.new_tracks f) (BT.count_after f).
    induction boxes as [|det rest IH]; intros new c' count Hc Hin.
    + cbn in Hc. simplify_eq. by apply elem_of_nil in Hin.
    + cbn [BT.create_tracks] in Hc.
      destruct (Qle_bool _ _); [|by eapply IH].
      unfold KBT.init in Hc.
      destruct (BT.create_tracks _ rest ts (count + 1)) as [others c2] eqn:E.
      simplify_eq. apply elem_of_cons in Hin as [->|Hin].
      * unfold consistent. cbn. lia.
      * by eapply IH.
Qed.

(** X7: the counters of a track stay consistent over any sequence of calls
    ([hits] is one more than [hit_streak], and [age] is at least
    [time_since_update + hit_streak + 1]); so every track that [update]
    returns has been corrected at least three times and is at least four
    frames old: a new object is not reported before its fourth frame. *)
Theorem reported_tracks_are_seasoned calls : forall count self count' self' fs,
  Forall consistent (BT.tracked_stracks self) ->
  run_calls calls count self = Some (count', self', fs) ->
  Forall consistent (BT.tracked_stracks self') /\
  Forall (fun f =>
            forall td, td ∈ BT.tracking_data f ->
              exists trk,
                trk ∈ BT.tracked_stracks (BT.self_after f) /\
                TrackingData.track_id td = KBT.id trk /\
                TrackingData.bounding_box td = KBT.get_state trk /\
                4 <= KBT.hits trk /\ 4 <= KBT.age trk)
         fs.
Proof.
  induction calls as [|[dets ts|] rest IH];
    intros count self count' self' fs Hall Hrun.
  - cbn in Hrun. simplify_eq. split; [done|constructor].
  - apply run_calls_update in Hrun as (f & fs' & Hf & Hrest & Hfs).
    cbn in Hrest, Hfs. subst fs.
    pose proof (run_update_consistent _ _ _ _ _ Hf Hall) as Hall'.
    destruct (IH _ _ _ _ _ Hall' Hrest) as [Hend Hfs].
    split; [done|]. constructor; [|done].
    intros td Htd.
    destruct (run_update_inv _ _ _ _ _ Hf)
      as (? & ? & ? & ? & _ & _ & _ & _ & _ & _ & _ & _ & Hdata & _).
    rewrite Hdata in Htd.
    apply list_elem_of_fmap in Htd as (trk & -> & Hin).
    apply list_elem_of_filter in Hin as [Hhs Hin].
    exists trk. split; [done|]. cbn [BT.report TrackingData.track_id
      TrackingData.bounding_box]. split; [done|]. split; [done|].
    rewrite Forall_forall in Hall'.
    destruct (Hall' _ Hin) as (H1 & H2 & H3 & H4). lia.
  - cbn [run_calls] in Hrun. apply (IH _ _ _ _ _) in Hrun; [done|].
    cbn. constructor.
Qed.

Lemma reported_tracks_are_seasoned_witness :
  exists count' self' fs,
    run_calls (warmup ++ [Update [] 4]) 0 BT.default =
      Some (count', self', fs) /\
    Forall consistent (BT.tracked_stracks self') /\
    Forall (fun f =>
              forall td, td ∈ BT.tracking_data f ->
                exists trk,
                  trk ∈ BT.tracked_stracks (BT.self_after f) /\
                  TrackingData.track_id td = KBT.id trk /\
                  TrackingData.bounding_box td = KBT.get_state trk /\
                  4 <= KBT.hits trk /\ 4 <= KBT.age trk)
           fs.
Proof.
  destruct (run_calls (warmup ++ [Update [] 4]) 0 BT.default)
    as [[[count' self'] fs]|] eqn:E.
  - exists count', self', fs. split; [reflexivity|].
    apply (reported_tracks_are_seasoned (warmup ++ [Update [] 4]) 0 BT.default
             count' self' fs);
      [constructor|exact E].
  - exfalso. vm_compute in E. discriminate.
Defined.

Lemma run_update_total count self dets ts f :
  BT.run_update count self dets ts = Some f ->
  BT.total_tracks (BT.self_after f) =
    BT.total_tracks self + Z.of_nat (length (BT.new_tracks f)).
Proof.
  unfold BT.run_update.
  destruct (BT._associate _ _ (BT.match_thresh self)) as [[ms uds] uts].
  destruct (BT.update_matched ms _ ts _) as [tracked1|];
    [|discriminate]. cbn [mbind option_bind].
  match goal with
  | |- context [if ?c then ?a else ?b] =>
      destruct (if c then a else b) as [[ml tracked2]|]; [|discriminate]
  end.
  cbn [mbind option_bind].
  destruct (mapM _ uds) as [boxes|]; [|discriminate].
  cbn [mbind option_bind].
  destruct (BT.create_tracks _ boxes ts count) as [new count1].
  destruct (BT.evict_loop _ _ _ _) as [[tracked4 lost]|]; [|discriminate].
  cbn [mbind option_bind].
  intros H. apply (inj Some) in H. rewrite <- H. reflexivity.
Qed.

(** X8: over any sequence of [update] and [reset] calls the configuration
    stays as it was, [total_tracks] grows by the number of tracks created
    (it is not cleared by [reset], unlike the class counter and
    [frame_id]), and [frame_id] counts the [update] calls since the last
    [reset]. *)
Theorem session_counters calls : forall count self count' self' fs,
  run_calls calls count self = Some (count', self', fs) ->
  BT.track_thresh self' = BT.track_thresh self /\
  BT.track_buffer self' = BT.track_buffer self /\
  BT.match_thresh self' = BT.match_thresh self /\
  BT.stats_total_tracks (BT.get_performance_stats self') =
    BT.total_tracks self + Z.of_nat (length (created_ids fs)) /\
  BT.stats_frame_id (BT.get_performance_stats self') =
    frames_since_reset calls (BT.frame_id self).
Proof.
  induction calls as [|[dets ts|] rest IH];
    intros count self count' self' fs Hrun.
  - cbn in Hrun. simplify_eq. cbn. repeat split; lia.
  - apply run_calls_update in Hrun as (f & fs' & Hf & Hrest & Hfs).
    cbn in Hrest, Hfs. subst fs.
    destruct (IH _ _ _ _ _ Hrest) as (H1 & H2 & H3 & H4 & H5).
    destruct (run_update_inv _ _ _ _ _ Hf)
      as (? & ? & ? & ? & _ & _ & _ & _ & _ & _ & _ & _ & _ & Hb & Ht & Hm &
          Hfid & _).
    pose proof (run_update_total _ _ _ _ _ Hf) as Htot.
    rewrite H1, H2, H3, H4, H5, Ht, Hb, Hm, Htot, Hfid.
    unfold created_ids. cbn [map concat]. fold_fmap.
    rewrite length_app, length_fmap.
    cbn [frames_since_reset]. repeat split; lia.
  - cbn [run_calls] in Hrun.
    destruct (IH _ _ _ _ _ Hrun) as (H1 & H2 & H3 & H4 & H5).
    rewrite H1, H2, H3, H4, H5. cbn. done.
Qed.

Lemma session_counters_witness :
  exists count' self' fs,
    run_calls churn_reset 0 short_buffer = Some (count', self', fs) /\
    BT.track_thresh self' = BT.track_thresh short_buffer /\
    BT.track_buffer self' = BT.track_buffer short_buffer /\
    BT.match_thresh self' = BT.match_thresh short_buffer /\
    BT.stats_total_tracks (BT.get_performance_stats self') =
      BT.total_tracks short_buffer + Z.of_nat (length (created_ids fs)) /\
    BT.stats_frame_id (BT.get_performance_stats self') =
      frames_since_reset churn_reset (BT.frame_id short_buffer).
Proof.
  destruct (run_calls churn_reset 0 short_buffer)
    as [[[count' self'] fs]|] eqn:E.
  - exists count', self', fs. split; [reflexivity|].
    exact (session_counters churn_reset 0 short_buffer count' self' fs E).
  - exfalso. vm_compute in E. discriminate.
Defined.

Lemma get_track_by_id_Some self (k : Z) trk :
  BT.get_track_by_id self k = Some trk ->
  trk ∈ BT.tracked_stracks self /\ KBT.id trk = k.
Proof.
  unfold BT.get_track_by_id. intros H.
  apply head_Some in H as [rest H].
  assert (Hin : trk ∈ filter (fun track => KBT.id track = k)
                             (BT.tracked_stracks self))
    by (rewrite H; left).
  apply list_elem_of_filter in Hin as [? ?]. done.
Qed.

Lemma get_track_by_id_None self (k : Z) :
  BT.get_track_by_id self k = None <-> inactive self k.
Proof.
  unfold BT.get_track_by_id, inactive. rewrite head_None. split.
  - intros H (trk & Hk & Hin)%list_elem_of_fmap.
    assert (Hf : trk ∈ filter (fun track => KBT.id track = k)
                              (BT.tracked_stracks self))
      by (by apply list_elem_of_filter).
    rewrite H in Hf. by apply elem_of_nil in Hf.
  - intros Hn.
    destruct (filter _ _) as [|trk rest] eqn:E; [done|]. exfalso.
    assert (Hf : trk ∈ filter (fun track => KBT.id track = k)
                              (BT.tracked_stracks self))
      by (rewrite E; left).
    apply list_elem_of_filter in Hf as [Hk Hin].
    apply Hn. rewrite <- Hk. by apply list_elem_of_fmap_2.
Qed.

Lemma get_track_by_id_active self trk :
  NoDup (KBT.id <$> BT.tracked_stracks self) ->
  trk ∈ BT.tracked_stracks self ->
  BT.get_track_by_id self (KBT.id trk) = Some trk.
Proof.
  intros Hnd Hin.
  destruct (BT.get_track_by_id self (KBT.id trk)) as [other|] eqn:E.
  - apply get_track_by_id_Some in E as [Hin' Hid]. f_equal.
    apply list_elem_of_lookup_1 in Hin as [i Hi], Hin' as [j Hj].
    assert (i = j).
    { eapply NoDup_lookup; [exact Hnd| |]; rewrite list_lookup_fmap.
      - by rewrite Hi.
      - rewrite Hj. cbn. by rewrite Hid. }
    subst j. congruence.
  - apply get_track_by_id_None in E. exfalso. apply E.
    by apply list_elem_of_fmap_2.
Qed.

Lemma run_calls_ids_below calls : forall count self count' self' fs,
  ids_below count self ->
  run_calls calls count self = Some (count', self', fs) ->
  ids_below count' self' /\
  Forall (fun f => NoDup (KBT.id <$> BT.tracked_stracks (BT.self_after f))) fs.
Proof.
  induction calls as [|[dets ts|] rest IH];
    intros count self count' self' fs Hids Hrun.
  - cbn in Hrun. simplify_eq. split; [done|constructor].
  - apply run_calls_update in Hrun as (f & fs' & Hf & Hrest & Hfs).
    cbn in Hrest, Hfs. subst fs.
    destruct (run_update_ids _ _ _ _ _ Hf Hids) as (Hids' & _).
    destruct (IH _ _ _ _ _ Hids' Hrest) as [Hend Hfs].
    split; [done|]. constructor; [by destruct Hids'|done].
  - cbn [run_calls] in Hrun. eapply IH; [|exact Hrun].
    split; cbn; constructor.
Qed.

(** X9: [get_track_by_id] finds exactly the active tracks: it returns
    [None] for an identity that no active track has, and otherwise an
    active track with that identity; over any sequence of calls from a
    state with distinct identities below the class counter, every entry
    that [update] returns can be looked up by its [track_id] right after
    the call, and the track found has the returned box as its state. *)
Theorem reported_tracks_can_be_looked_up calls :
  forall count self count' self' fs,
  ids_below count self ->
  run_calls calls count self = Some (count', self', fs) ->
  (forall k, BT.get_track_by_id self' k = None <-> inactive self' k) /\
  (forall k trk, BT.get_track_by_id self' k = Some trk ->
     trk ∈ BT.tracked_stracks self' /\ KBT.id trk = k) /\
  (forall trk, trk ∈ BT.tracked_stracks self' ->
     BT.get_track_by_id self' (KBT.id trk) = Some trk) /\
  Forall (fun f =>
            forall td, td ∈ BT.tracking_data f ->
              exists trk,
                BT.get_track_by_id (BT.self_after f)
                                   (TrackingData.track_id td) = Some trk /\
                KBT.get_state trk = TrackingData.bounding_box td /\
                3 <= KBT.hit_streak trk)
         fs.
Proof.
  intros count self count' self' fs Hids Hrun.
  destruct (run_calls_ids_below _ _ _ _ _ _ Hids Hrun) as [[Hnd _] _].
  split; [intros k; apply get_track_by_id_None|].
  split; [intros k trk; apply get_track_by_id_Some|].
  split; [intros trk; by apply get_track_by_id_active|].
  clear Hnd. revert count self count' self' fs Hids Hrun.
  induction calls as [|[dets ts|] rest IH];
    intros count self count' self' fs Hids Hrun.
  - cbn in Hrun. simplify_eq. constructor.
  - apply run_calls_update in Hrun as (f & fs' & Hf & Hrest & Heq).
    cbn in Hrest, Heq. subst fs.
    destruct (run_update_ids _ _ _ _ _ Hf Hids) as (Hids' & _).
    constructor; [|by eapply IH].
    intros td Htd.
    destruct (run_update_inv _ _ _ _ _ Hf)
      as (? & ? & ? & ? & _ & _ & _ & _ & _ & _ & _ & _ & Hdata & _).
    rewrite Hdata in Htd.
    apply list_elem_of_fmap in Htd as (trk & -> & Hin).
    apply list_elem_of_filter in Hin as [Hhs Hin].
    exists trk. cbn [BT.report TrackingData.track_id
      TrackingData.bounding_box]. split; [|done].
    apply get_track_by_id_active; [by destruct Hids'|done].
  - cbn [run_calls] in Hrun. eapply IH; [|exact Hrun].
    split; cbn; constructor.
Qed.

Lemma reported_tracks_can_be_looked_up_witness :
  exists count' self' fs,
    run_calls two_boxes 0 BT.default = Some (count', self', fs) /\
    (forall k, BT.get_track_by_id self' k = None <-> inactive self' k) /\
    (forall k trk, BT.get_track_by_id self' k = Some trk ->
       trk ∈ BT.tracked_stracks self' /\ KBT.id trk = k) /\
    (forall trk, trk ∈ BT.tracked_stracks self' ->
       BT.get_track_by_id self' (KBT.id trk) = Some trk) /\
    Forall (fun f =>
              forall td, td ∈ BT.tracking_data f ->
                exists trk,
                  BT.get_track_by_id (BT.self_after f)
                                     (TrackingData.track_id td) = Some trk /\
                  KBT.get_state trk = TrackingData.bounding_box td /\
                  3 <= KBT.hit_streak trk)
           fs.
Proof.
  destruct (run_calls two_boxes 0 BT.default)
    as [[[count' self'] fs]|] eqn:E.
  - exists count', self', fs. split; [reflexivity|].
    apply (reported_tracks_can_be_looked_up two_boxes 0 BT.default
             count' self' fs); [|exact E].
    split; cbn; constructor.
  - exfalso. vm_compute in E. discriminate.
Defined.

End PerTrackFacts.

(** ** The greedy association is stable *)

Section GreedyFacts.
Import Session Candidates.

Lemma insert_desc_sorted (c : nat * nat * Q) l :
  StronglySorted desc l -> StronglySorted desc (BT.insert_desc c l).
Proof.
  induction l as [|e l IH]; intros Hs; cbn.
  - repeat constructor.
  - apply StronglySorted_inv in Hs as [Hl He].
    destruct (qle_bool_spec e.2 c.2) as [Hle|Hnle].
    + constructor; [by constructor|]. constructor; [done|].
      rewrite Forall_forall in He |- *. intros x Hx. unfold desc in *.
      eapply Qle_trans; [by apply He|done].
    + constructor; [by apply IH|].
      apply Forall_forall. intros x [->|Hx]%elem_of_insert_desc.
      * unfold desc. apply Qnot_le_lt in Hnle. by apply Qlt_le_weak.
      * rewrite Forall_forall in He. by apply He.
Qed.

Lemma argsort_desc_sorted l : StronglySorted desc (BT.argsort_desc l).
Proof.
  induction l as [|e l IH]; cbn; [constructor|by apply insert_desc_sorted].
Qed.

Lemma where_ge_complete (mat : list (list Q)) thr (d t : nat) row (v : Q) :
  mat !! d = Some row -> row !! t = Some v -> (thr <= v)%Q ->
  (d, t, v) ∈ BT.where_ge mat thr.
Proof.
  intros Hrow Hv Hle. unfold BT.where_ge.
  apply elem_of_concat.
  exists (filter (fun c : nat * nat * Q => Is_true (Qle_bool thr c.2))
                 (imap (fun t score => (d, t, score)) row)).
  split.
  - apply list_elem_of_filter. split.
    + cbn. apply Is_true_true. by apply Qle_bool_iff.
    + apply elem_of_lookup_imap. eauto.
  - apply elem_of_lookup_imap. exists d, row. done.
Qed.

Lemma where_ge_threshold (mat : list (list Q)) thr (d t : nat) (v : Q) :
  (d, t, v) ∈ BT.where_ge mat thr -> (thr <= v)%Q.
Proof.
  unfold BT.where_ge. intros H.
  apply elem_of_concat in H as (cells & Hc & Hcells).
  apply elem_of_lookup_imap in Hcells as (i & row & -> & Hrow).
  apply list_elem_of_filter in Hc as [Hc _]. cbn in Hc.
  apply Is_true_true in Hc. by apply Qle_bool_iff.
Qed.

Lemma iou_matrix_cell dets trks (d t : nat) det trk :
  dets !! d = Some det -> trks !! t = Some trk ->
  exists row, BT.iou_matrix dets trks !! d = Some row /\
              row !! t = Some (IoU._compute_iou det (KBT.get_state trk)).
Proof.
  intros Hd Ht. unfold BT.iou_matrix. fold_fmap.
  eexists. split.
  - rewrite list_lookup_fmap, Hd. reflexivity.
  - fold_fmap. rewrite list_lookup_fmap, Ht. reflexivity.
Qed.

Lemma iou_matrix_cell_inv dets trks (d t : nat) row (v : Q) :
  BT.iou_matrix dets trks !! d = Some row -> row !! t = Some v ->
  exists det trk, dets !! d = Some det /\ trks !! t = Some trk /\
                  v = IoU._compute_iou det (KBT.get_state trk).
Proof.
  unfold BT.iou_matrix. fold_fmap. intros Hrow Hv.
  apply list_lookup_fmap_Some in Hrow as (det & -> & Hdet).
  fold_fmap.
  apply list_lookup_fmap_Some in Hv as (trk & -> & Htrk).
  eauto.
Qed.

(** A candidate the greedy loop passes over shares its detection or its
    track with a pair taken before it. *)
Lemma greedy_blocked (cs : list (nat * nat * Q)) :
  forall m ud ut m' ud' ut',
  BT.greedy cs.*1 m ud ut = (m', ud', ut') ->
  (forall d, d ∈ ud <-> d ∈ m.*1) -> (forall t, t ∈ ut <-> t ∈ m.*2) ->
  StronglySorted desc cs ->
  (forall p, p ∈ m -> p ∈ m') /\
  forall c, c ∈ cs ->
    (exists p, p ∈ m /\ (p.1 = c.1.1 \/ p.2 = c.1.2)) \/
    (exists c', c' ∈ cs /\ c'.1 ∈ m' /\
                (c'.1.1 = c.1.1 \/ c'.1.2 = c.1.2) /\ (c.2 <= c'.2)%Q).
Proof.
  induction cs as [|[[d t] v] rest IH];
    intros m ud ut m' ud' ut' Hg Hud Hut Hs.
  - cbn in Hg. simplify_eq. split; [done|]. by intros c ?%elem_of_nil.
  - apply StronglySorted_inv in Hs as [Hrest Hhead].
    cbn [fmap list_fmap fst BT.greedy] in Hg.
    destruct (bool_decide (d ∉ ud) && bool_decide (t ∉ ut)) eqn:E.
    + apply andb_prop in E as [Ed Et].
      apply bool_decide_eq_true in Ed, Et.
      apply IH in Hg as [Hsub Hall]; [| | |done].
      * assert (Hin : (d, t) ∈ m')
          by (apply Hsub, elem_of_app; right; by apply list_elem_of_singleton).
        split; [intros p Hp; apply Hsub, elem_of_app; by left|].
        intros c [->|Hc]%elem_of_cons.
        { right. exists (d, t, v). split; [left|]. split; [done|].
          split; [by left|apply Qle_refl]. }
        destruct (Hall c Hc) as [(p & Hp & Hshare)|(c' & Hc' & ? & ? & ?)].
        -- apply elem_of_app in Hp as [Hp|Hp]; [left; eauto|].
           apply list_elem_of_singleton in Hp as ->.
           right. exists (d, t, v). split; [left|]. split; [done|].
           split; [done|]. rewrite Forall_forall in Hhead. by apply Hhead.
        -- right. exists c'. split; [by right|done].
      * intros d'. rewrite fmap_app, elem_of_app, elem_of_union, Hud.
        cbn. rewrite elem_of_singleton, list_elem_of_singleton. tauto.
      * intros t'. rewrite fmap_app, elem_of_app, elem_of_union, Hut.
        cbn. rewrite elem_of_singleton, list_elem_of_singleton. tauto.
    + apply IH in Hg as [Hsub Hall]; [|done|done|done].
      split; [done|].
      intros c [->|Hc]%elem_of_cons.
      * left. apply andb_false_iff in E as [E|E];
          apply bool_decide_eq_false in E; apply dec_stable in E.
        -- apply Hud, list_elem_of_fmap in E as (p & Hp & Hin).
           exists p. split; [done|]. left. by rewrite <- Hp.
        -- apply Hut, list_elem_of_fmap in E as (p & Hp & Hin).
           exists p. split; [done|]. right. by rewrite <- Hp.
      * destruct (Hall c Hc) as [?|(c' & Hc' & ?)]; [by left|].
        right. exists c'. split; [by right|done].
Qed.

(** X10: every pair that [_associate] returns has an IoU at or above the
    threshold, and the matching is stable: whenever a detection and a track
    have an IoU at or above the threshold, some returned pair uses that
    detection or that track with an IoU at least as large.  So a detection
    and a track that are both left unmatched have an IoU below the
    threshold. *)
Theorem associate_is_stable detections trackers iou_threshold m
    (uds uts : list nat) :
  BT._associate detections trackers iou_threshold = (m, uds, uts) ->
  let iou det trk := IoU._compute_iou det (KBT.get_state trk) in
  (forall d t, (d, t) ∈ m ->
     exists det trk, detections !! d = Some det /\ trackers !! t = Some trk /\
                     (iou_threshold <= iou det trk)%Q) /\
  (forall d t det trk,
     detections !! d = Some det -> trackers !! t = Some trk ->
     (iou_threshold <= iou det trk)%Q ->
     exists d' t' det' trk',
       (d', t') ∈ m /\ (d' = d \/ t' = t) /\
       detections !! d' = Some det' /\ trackers !! t' = Some trk' /\
       (iou det trk <= iou det' trk')%Q) /\
  (forall d t det trk,
     d ∈ uds -> t ∈ uts ->
     detections !! d = Some det -> trackers !! t = Some trk ->
     (iou det trk < iou_threshold)%Q).
Proof.
  intros Hassoc iou.
  pose proof (associate_spec _ _ _ _ _ _ Hassoc) as (_ & _ & _ & Huds & Huts).
  assert (Hstable : forall d t det trk,
     detections !! d = Some det -> trackers !! t = Some trk ->
     (iou_threshold <= iou det trk)%Q ->
     exists d' t' det' trk',
       (d', t') ∈ m /\ (d' = d \/ t' = t) /\
       detections !! d' = Some det' /\ trackers !! t' = Some trk' /\
       (iou det trk <= iou det' trk')%Q);
  [|assert (Hthr : forall d t, (d, t) ∈ m ->
     exists det trk, detections !! d = Some det /\ trackers !! t = Some trk /\
                     (iou_threshold <= iou det trk)%Q)].
  - revert Hassoc. unfold BT._associate.
    destruct (Nat.eqb_spec (length trackers) 0) as [E|E].
    { intros _ d t det trk _ Ht. apply lookup_lt_Some in Ht. lia. }
    fold_fmap. set (cs := BT.argsort_desc _).
    destruct (BT.greedy cs.*1 [] ∅ ∅) as [[m' ud] ut] eqn:G.
    intros H. simplify_eq.
    apply greedy_blocked in G as [_ Hall];
      [|set_solver|set_solver|apply argsort_desc_sorted].
    intros d t det trk Hd Ht Hle.
    destruct (iou_matrix_cell _ _ _ _ _ _ Hd Ht) as (row & Hrow & Hv).
    pose proof (where_ge_complete _ _ _ _ _ _ Hrow Hv Hle) as Hin.
    apply elem_of_argsort_desc in Hin. fold cs in Hin.
    destruct (Hall _ Hin) as [(p & ?%elem_of_nil & _)|(c' & Hc' & Hm & Hsh & Hsc)];
      [done|].
    destruct c' as [[d' t'] v']. cbn in Hm, Hsh, Hsc.
    unfold cs in Hc'. rewrite elem_of_argsort_desc in Hc'.
    apply elem_of_where_ge in Hc' as (row' & Hrow' & Hv').
    destruct (iou_matrix_cell_inv _ _ _ _ _ _ Hrow' Hv')
      as (det' & trk' & Hd' & Ht' & ->).
    exists d', t', det', trk'. done.
  - revert Hassoc. unfold BT._associate.
    destruct (Nat.eqb_spec (length trackers) 0) as [E|E].
    { intros H. simplify_eq. by intros d t ?%elem_of_nil. }
    fold_fmap. set (cs := BT.argsort_desc _).
    destruct (BT.greedy cs.*1 [] ∅ ∅) as [[m' ud] ut] eqn:G.
    intros H. simplify_eq.
    apply greedy_spec in G as (_ & _ & _ & _ & H5);
      [|constructor|constructor|set_solver|set_solver].
    intros d t Hp.
    destruct (H5 _ Hp) as [Hin|Hin]; [by apply elem_of_nil in Hin|].
    apply list_elem_of_fmap in Hin as ([[d' t'] v] & [= <- <-] & Hin).
    unfold cs in Hin. rewrite elem_of_argsort_desc in Hin.
    pose proof (where_ge_threshold _ _ _ _ _ Hin) as Hle.
    apply elem_of_where_ge in Hin as (row & Hrow & Hv).
    destruct (iou_matrix_cell_inv _ _ _ _ _ _ Hrow Hv)
      as (det & trk & Hd & Ht & ->).
    exists det, trk. done.
  - split; [done|]. split; [done|].
    intros d t det trk Hd Ht Hdet Htrk.
    apply Qnot_le_lt. intros Hle.
    destruct (Hstable d t det trk Hdet Htrk Hle)
      as (d' & t' & det' & trk' & Hin & [-> | ->] & _).
    + rewrite Huds in Hd. apply list_elem_of_filter in Hd as [Hd _].
      apply Hd. by apply (list_elem_of_fmap_2 fst _ (d, t')).
    + rewrite Huts in Ht. apply list_elem_of_filter in Ht as [Ht _].
      apply Ht. by apply (list_elem_of_fmap_2 snd _ (d', t)).
Qed.

Lemma associate_is_stable_witness :
  exists m uds uts,
    BT._associate Examples.mixed_frame [(KBT.init 0 Examples.left_box 0).1]
                  (8 # 10) = (m, uds, uts) /\
    forall d t det trk,
      d ∈ uds -> t ∈ uts ->
      Examples.mixed_frame !! d = Some det ->
      [(KBT.init 0 Examples.left_box 0).1] !! t = Some trk ->
      (IoU._compute_iou det (KBT.get_state trk) < 8 # 10)%Q.
Proof.
  destruct (BT._associate Examples.mixed_frame
              [(KBT.init 0 Examples.left_box 0).1] (8 # 10))
    as [[m uds] uts] eqn:E.
  exists m, uds, uts. split; [reflexivity|].
  exact (proj2 (proj2 (associate_is_stable
                         Examples.mixed_frame
                         [(KBT.init 0 Examples.left_box 0).1] (8 # 10)
                         m uds uts E))).
Defined.

End GreedyFacts.
